(** * Graham-scan convex hull: model of [src/utils/geometry.py] and
      [src/convex_hull/convex_hull_2d.py]

    The code is modelled twice.

    First over the real numbers of the Standard Library, the reading the
    specification gives of a point ("immutable pair (x, y) of real
    numbers"): [math.sqrt] is [sqrt], [math.atan2] is the two-argument arc
    tangent with values in (-PI, PI], and [==], [<], [>] are the decidable
    comparisons on [R].  The properties proved on this model are those of
    the control flow, of the lists and of the engine's state, and those of
    the geometry as it would be without rounding.

    Then over IEEE 754 doubles, the numbers the code computes with, in the
    module [Machine]: there a difference or a product is rounded, can
    overflow or underflow, and a comparison with a value that is not a
    number is false.  The properties that depend on the arithmetic are
    settled on that model. *)

From Stdlib Require Floats QArith.
From Stdlib Require Import String.
From Stdlib Require Import Reals Lra Psatz ZArith List Bool Arith Lia.
From Stdlib Require Import Permutation Sorted.
Import ListNotations.

Open Scope R_scope.

(** ** Python scaffolding: comparisons, exceptions, [min] and [sorted] *)

Definition Reqb (a b : R) : bool := if Req_dec_T a b then true else false.
Definition Rltb (a b : R) : bool := if Rlt_dec a b then true else false.

(** [(a1, b1) < (a2, b2)] on Python tuples: the first components decide
    unless they are equal. *)
Definition tuple_lt (k1 k2 : R * R) : bool :=
  if Reqb (fst k1) (fst k2) then Rltb (snd k1) (snd k2)
  else Rltb (fst k1) (fst k2).

Inductive exception : Type :=
| ValueError (msg : string).

Inductive result (A : Type) : Type :=
| Return (a : A)
| Raise (e : exception).
Arguments Return {A} a.
Arguments Raise {A} e.

Definition bind {A B : Type} (m : result A) (k : A -> result B) : result B :=
  match m with
  | Return a => k a
  | Raise e => Raise e
  end.

Notation "'do' a <- m ; k" := (bind m (fun a => k))
  (at level 10, a name, m at level 100, k at level 200).

Section PythonBuiltins.
Context {A : Type}.
Variable key : A -> R * R.

(** The running minimum of [min(iterable, key=...)]: an item replaces the
    current best only when its key is strictly smaller, so the first of
    several minimal items wins. *)
Fixpoint min_loop (best : A) (rest : list A) : A :=
  match rest with
  | [] => best
  | item :: rest' =>
      if tuple_lt (key item) (key best) then min_loop item rest'
      else min_loop best rest'
  end.

Definition py_min (items : list A) : result A :=
  match items with
  | [] => Raise (ValueError "min() arg is an empty sequence")
  | first :: rest => Return (min_loop first rest)
  end.

(** [sorted(items, key=...)] is a stable sort that compares keys with [<]
    only.  Stable insertion: an item goes in front of the first element
    whose key is not smaller than its own. *)
Fixpoint insert_sorted (item : A) (l : list A) : list A :=
  match l with
  | [] => [item]
  | b :: l' =>
      if tuple_lt (key b) (key item) then b :: insert_sorted item l'
      else item :: b :: l'
  end.

Definition sorted (items : list A) : list A :=
  fold_right insert_sorted [] items.
End PythonBuiltins.

(** ** [src/utils/geometry.py] *)

Record Point2D : Type := mkPoint2D { x : R; y : R }.

(** [Point2D.__eq__] (and [!=], its negation). *)
Definition Point2D_eq (self other : Point2D) : bool :=
  Reqb (x self) (x other) && Reqb (y self) (y other).

Definition distance_to (self other : Point2D) : R :=
  let dx := x self - x other in
  let dy := y self - y other in
  sqrt (dx * dx + dy * dy).

(** The cross product whose sign [orientation] inspects. *)
Definition orientation_val (p q r : Point2D) : R :=
  (y q - y p) * (x r - x q) - (x q - x p) * (y r - y q).

Definition Collinear : Z := 0%Z.
Definition Clockwise : Z := 1%Z.
Definition CounterClockwise : Z := 2%Z.

Definition orientation (p q r : Point2D) : Z :=
  let val := orientation_val p q r in
  if Reqb val 0 then 0%Z
  else if Rltb 0 val then 1%Z else 2%Z.

Definition ccw (p1 p2 p3 : Point2D) : bool :=
  (orientation p1 p2 p3 =? 2)%Z.

(** [math.atan2 y x]: the angle of the vector (x, y), in (-PI, PI]; 0 at
    the origin. *)
Definition atan2 (dy dx : R) : R :=
  if Rlt_dec 0 dx then atan (dy / dx)
  else if Rlt_dec dx 0 then
    (if Rle_dec 0 dy then atan (dy / dx) + PI else atan (dy / dx) - PI)
  else if Rlt_dec 0 dy then PI / 2
  else if Rlt_dec dy 0 then - (PI / 2)
  else 0.

Definition polar_angle (origin point : Point2D) : R :=
  let dx := x point - x origin in
  let dy := y point - y origin in
  atan2 dy dx.

(** [Point2D.__lt__]: by x, then by y. *)
Definition Point2D_lt (self other : Point2D) : bool :=
  if negb (Reqb (x self) (x other)) then Rltb (x self) (x other)
  else Rltb (y self) (y other).

Record Segment : Type := mkSegment {
  segment_start : Point2D;
  segment_end : Point2D
}.

(** [Segment.length] *)
Definition Segment_length (self : Segment) : R :=
  distance_to (segment_start self) (segment_end self).

(** ** [src/convex_hull/convex_hull_2d.py] *)

(** The engine object: its two attributes. *)
Record ConvexHull2D : Type := mkConvexHull2D {
  points : list Point2D;
  hull : list Point2D
}.

Definition too_few_points_msg : string :=
  "Χρειάζονται τουλάχιστον 3 σημεία για convex hull".

(** [ConvexHull2D.__init__] *)
Definition init (pts : list Point2D) : result ConvexHull2D :=
  if (length pts <? 3)%nat then Raise (ValueError too_few_points_msg)
  else Return {| points := pts; hull := [] |}.

(** The angle tolerance of the same-angle test. *)
Definition angle_tolerance : R := 1e-9.

Definition same_angle (origin a b : Point2D) : bool :=
  Rltb (Rabs (polar_angle origin a - polar_angle origin b)) angle_tolerance.

(** The loop of [_remove_same_angle_points].  [filtered] is kept with its
    last element first: [last :: before] stands for the Python list
    [before reversed + [last]], so [filtered[-1] = p] replaces the head and
    [filtered.append(p)] conses. *)
Fixpoint remove_same_angle_loop (origin : Point2D)
    (filtered pts : list Point2D) : list Point2D :=
  match pts with
  | [] => filtered
  | p :: rest =>
      match filtered with
      | [] => remove_same_angle_loop origin [p] rest
      | last :: before =>
          if same_angle origin last p then
            if Rltb (distance_to origin last) (distance_to origin p)
            then remove_same_angle_loop origin (p :: before) rest
            else remove_same_angle_loop origin filtered rest
          else remove_same_angle_loop origin (p :: filtered) rest
      end
  end.

(** [ConvexHull2D._remove_same_angle_points] *)
Definition remove_same_angle_points (origin : Point2D)
    (pts : list Point2D) : list Point2D :=
  match pts with
  | [] => []
  | first :: rest => rev (remove_same_angle_loop origin [first] rest)
  end.

(** The inner [while] of the scan, on the stack with its top first:
    [top :: second :: _] is a Python list ending in [..., second, top]. *)
Fixpoint pop_while (p : Point2D) (stack : list Point2D) : list Point2D :=
  match stack with
  | top :: ((second :: _) as below) =>
      if negb (ccw second top p) then pop_while p below else stack
  | _ => stack
  end.

(** One round of the [for] loop: pop, then [hull.append(p)]. *)
Definition scan_step (stack : list Point2D) (p : Point2D) : list Point2D :=
  p :: pop_while p stack.

Definition min_key (p : Point2D) : R * R := (y p, x p).

Definition sort_key (start p : Point2D) : R * R :=
  (polar_angle start p, distance_to start p).

(** [ConvexHull2D.graham_scan]: the returned list and the engine after the
    call ([self.hull] is assigned only on the path through the scan). *)
Definition graham_scan (self : ConvexHull2D)
  : result (list Point2D * ConvexHull2D) :=
  do start <- py_min min_key (points self);
  let other_points :=
    filter (fun p => negb (Point2D_eq p start)) (points self) in
  let sorted_points := sorted (sort_key start) other_points in
  let filtered_points := remove_same_angle_points start sorted_points in
  if (length filtered_points <? 2)%nat then
    Return (start :: filtered_points, self)
  else
    let stack := [nth 1 filtered_points start; nth 0 filtered_points start;
                  start] in
    let stack := fold_left scan_step (skipn 2 filtered_points) stack in
    let hull := rev stack in
    Return (hull, {| points := points self; hull := hull |}).

(** [compute_hull]: [graham_scan] under the timing decorator, which prints
    the elapsed time and passes the result through. *)
Definition compute_hull (self : ConvexHull2D)
  : result (list Point2D * ConvexHull2D) :=
  graham_scan self.

Definition get_hull_vertices (self : ConvexHull2D) : list Point2D :=
  hull self.

Definition origin0 : Point2D := {| x := 0; y := 0 |}.

(** [self.hull[i]]; every index used below is within range. *)
Definition hull_at (self : ConvexHull2D) (i : nat) : Point2D :=
  nth i (hull self) origin0.

Definition get_hull_area (self : ConvexHull2D) : R :=
  if (length (hull self) <? 3)%nat then 0
  else
    let n := length (hull self) in
    let area :=
      fold_left
        (fun area i =>
           let j := ((i + 1) mod n)%nat in
           let area := area + x (hull_at self i) * y (hull_at self j) in
           area - x (hull_at self j) * y (hull_at self i))
        (seq 0 n) 0 in
    Rabs area / 2.

Definition get_hull_perimeter (self : ConvexHull2D) : R :=
  if (length (hull self) <? 2)%nat then 0
  else
    let n := length (hull self) in
    fold_left
      (fun perimeter i =>
         let j := ((i + 1) mod n)%nat in
         perimeter + distance_to (hull_at self i) (hull_at self j))
      (seq 0 n) 0.

(** What a call of the module-level functions hands back: a list of
    points, or Python's [None]. *)
Inductive pyvalue : Type :=
| PyNone
| PyList (l : list Point2D).

(** [quick_hull]: the body is [pass]. *)
Definition quick_hull (pts : list Point2D) : result pyvalue :=
  Return PyNone.

Definition unknown_algorithm_msg (algorithm : string) : string :=
  String.append "Unknown algorithm: " algorithm.

Definition compute_convex_hull (pts : list Point2D) (algorithm : string)
  : result pyvalue :=
  if String.eqb algorithm "graham" then
    do ch <- init pts;
    do r <- compute_hull ch;
    Return (PyList (fst r))
  else if String.eqb algorithm "quick" then
    quick_hull pts
  else Raise (ValueError (unknown_algorithm_msg algorithm)).

(** ** [src/convex_hull/visualization.py] *)

(** [min(...)] and [max(...)] over a generator of numbers, from its first
    item on: the running value is replaced by a strictly smaller (larger)
    item. *)
Fixpoint min_number (best : R) (rest : list R) : R :=
  match rest with
  | [] => best
  | item :: rest' =>
      if Rltb item best then min_number item rest' else min_number best rest'
  end.

Fixpoint max_number (best : R) (rest : list R) : R :=
  match rest with
  | [] => best
  | item :: rest' =>
      if Rltb best item then max_number item rest' else max_number best rest'
  end.

(** The axis limits [plot_convex_hull] computes under [if points:] and
    hands to [ax.set_xlim] and [ax.set_ylim]; [None] when the list is empty
    and no limit is set. *)
Definition plot_limits (pts : list Point2D) : option ((R * R) * (R * R)) :=
  match pts with
  | [] => None
  | p :: rest =>
      let x_min := min_number (x p) (map x rest) in
      let x_max := max_number (x p) (map x rest) in
      let y_min := min_number (y p) (map y rest) in
      let y_max := max_number (y p) (map y rest) in
      let x_range := x_max - x_min in
      let y_range := y_max - y_min in
      let padding := 0.1 in
      Some ((x_min - padding * x_range, x_max + padding * x_range),
            (y_min - padding * y_range, y_max + padding * y_range))
  end.

(** ** Vocabulary of the properties *)

(** The pivot's place among the input points: lowest, and leftmost among
    the lowest. *)
Definition lowest_leftmost (start : Point2D) (pts : list Point2D) : Prop :=
  In start pts /\
  forall p, In p pts -> y start < y p \/ (y start = y p /\ x start <= x p).

(** [p] lies in the half plane swept by the scan around [start]: strictly
    higher, or level and strictly to the right. *)
Definition above (start p : Point2D) : Prop :=
  y start < y p \/ (y start = y p /\ x start < x p).

(** The candidates handed to the scan: the value of [filtered_points]. *)
Definition filtered_of (start : Point2D) (pts : list Point2D) : list Point2D :=
  remove_same_angle_points start
    (sorted (sort_key start)
       (filter (fun p => negb (Point2D_eq p start)) pts)).

(** The order [sorted] establishes: [a] may stand before [b] when the key
    of [b] is not smaller than the key of [a]. *)
Definition key_le {A : Type} (key : A -> R * R) (a b : A) : Prop :=
  tuple_lt (key b) (key a) = false.

Definition angle_lt (s a b : Point2D) : Prop :=
  polar_angle s a < polar_angle s b.

Definition angle_gt (s a b : Point2D) : Prop :=
  polar_angle s b < polar_angle s a.

Definition angle_le (s a b : Point2D) : Prop :=
  polar_angle s a <= polar_angle s b.

(** Every three neighbours of the stack, read from the bottom up, turn
    counter-clockwise. *)
Fixpoint stack_ok (stack : list Point2D) : Prop :=
  match stack with
  | [] => True
  | c :: below =>
      match below with
      | b :: a :: _ => ccw a b c = true
      | _ => True
      end /\ stack_ok below
  end.

(** What holds of the stack between two rounds of the [for] loop: above
    the pivot lie at least two candidates, each with a larger polar angle
    than the ones below it. *)
Definition scan_inv (s : Point2D) (stack : list Point2D) : Prop :=
  exists body,
    stack = body ++ [s] /\ (2 <= length body)%nat /\
    Forall (above s) body /\ StronglySorted (angle_gt s) body /\
    stack_ok stack.

(** Every triple of cyclically consecutive vertices of [h] turns
    counter-clockwise. *)
Definition ccw_cycle (h : list Point2D) : Prop :=
  forall i a b c,
    nth_error h i = Some a ->
    nth_error h ((i + 1) mod length h) = Some b ->
    nth_error h ((i + 2) mod length h) = Some c ->
    ccw a b c = true.

(** [p] lies on the segment from [a] to [b]. *)
Definition between (a b p : Point2D) : Prop :=
  exists t, 0 <= t <= 1 /\
            x p = x a + t * (x b - x a) /\ y p = y a + t * (y b - y a).

(** [b] stands at least the angle tolerance further round the pivot than
    [a]. *)
Definition angle_gap (s a b : Point2D) : Prop :=
  angle_tolerance <= polar_angle s b - polar_angle s a.

(** The point [p] moved by the vector (dx, dy). *)
Definition translate (dx dy : R) (p : Point2D) : Point2D :=
  {| x := x p + dx; y := y p + dy |}.

(** An engine with all its points, input and hull, moved by (dx, dy). *)
Definition translate_engine (dx dy : R) (self : ConvexHull2D) : ConvexHull2D :=
  {| points := map (translate dx dy) (points self);
     hull := map (translate dx dy) (hull self) |}.

(** ** The inputs of the specification's scenarios *)

Definition sq0 : Point2D := {| x := 0; y := 0 |}.
Definition sq1 : Point2D := {| x := 10; y := 0 |}.
Definition sq2 : Point2D := {| x := 10; y := 10 |}.
Definition sq3 : Point2D := {| x := 0; y := 10 |}.
Definition sq4 : Point2D := {| x := 5; y := 5 |}.
Definition apex : Point2D := {| x := 5; y := 10 |}.
Definition midpoint : Point2D := {| x := 5; y := 0 |}.

(** Scenario 1: the corners of a square and an interior point. *)
Definition square : list Point2D := [sq0; sq1; sq2; sq3; sq4].

(** Scenario 2: a triangle and the midpoint of its base. *)
Definition triangle_with_midpoint : list Point2D := [sq0; sq1; apex; midpoint].

(** Scenario 3: an input with a repeated point. *)
Definition with_duplicates : list Point2D := [sq0; sq0; sq4; sq1].

(** Three points of one line, the lowest of them in the middle of the list. *)
Definition diagonal : list Point2D := [sq4; sq0; sq2].

(** ** The same code on IEEE 754 doubles *)

(** A Python [float] is a binary64 number, and so is a [PrimFloat.float]:
    [+], [-], [*] and [sqrt] round to the nearest double, a product or a
    difference can overflow to an infinity or underflow to zero, and [nan]
    compares false with everything, itself included.  The definitions of
    this module repeat the ones above, operation for operation, on that
    type. *)
Module Machine.
Import Floats QArith.
Local Open Scope float_scope.

(** [(a1, b1) < (a2, b2)] on tuples of floats. *)
Definition tuple_lt (k1 k2 : float * float) : bool :=
  if fst k1 =? fst k2 then snd k1 <? snd k2 else fst k1 <? fst k2.

Section PythonBuiltins.
Context {A : Type}.
Variable key : A -> float * float.

Fixpoint min_loop (best : A) (rest : list A) : A :=
  match rest with
  | [] => best
  | item :: rest' =>
      if tuple_lt (key item) (key best) then min_loop item rest'
      else min_loop best rest'
  end.

Definition py_min (items : list A) : result A :=
  match items with
  | [] => Raise (ValueError "min() arg is an empty sequence")
  | first :: rest => Return (min_loop first rest)
  end.

Fixpoint insert_sorted (item : A) (l : list A) : list A :=
  match l with
  | [] => [item]
  | b :: l' =>
      if tuple_lt (key b) (key item) then b :: insert_sorted item l'
      else item :: b :: l'
  end.

Definition sorted (items : list A) : list A :=
  fold_right insert_sorted [] items.

(** The order [sorted] establishes: [a] may stand before [b] when the key
    of [b] is not smaller than the key of [a]. *)
Definition key_le (a b : A) : Prop := tuple_lt (key b) (key a) = false.
End PythonBuiltins.

(** Both parts of a key are numbers. *)
Definition is_number (k : float * float) : Prop :=
  is_nan (fst k) = false /\ is_nan (snd k) = false.

(** Two keys that are equal part by part. *)
Definition same_key (k1 k2 : float * float) : bool :=
  (fst k1 =? fst k2) && (snd k1 =? snd k2).

(** How two doubles compare; [None] when one of them is not a number. *)
Definition compare (a b : float) : option comparison :=
  SFcompare (Prim2SF a) (Prim2SF b).

Record Point2D : Type := mkPoint2D { x : float; y : float }.

Definition Point2D_eq (self other : Point2D) : bool :=
  (x self =? x other) && (y self =? y other).

Definition distance_to (self other : Point2D) : float :=
  let dx := x self - x other in
  let dy := y self - y other in
  sqrt (dx * dx + dy * dy).

Definition orientation_val (p q r : Point2D) : float :=
  (y q - y p) * (x r - x q) - (x q - x p) * (y r - y q).

Definition orientation (p q r : Point2D) : Z :=
  let val := orientation_val p q r in
  if val =? 0 then 0%Z
  else if 0 <? val then 1%Z else 2%Z.

Definition ccw (p1 p2 p3 : Point2D) : bool :=
  (orientation p1 p2 p3 =? 2)%Z.

(** [math.pi], the double nearest to pi, and [math.copysign]. *)
Definition pi : float := 0x1.921fb54442d18p+1.
Definition copysign (m s : float) : float :=
  if get_sign s then - abs m else abs m.

Section Atan2.
(** The arc tangent of the platform's C library, which [math.atan2] calls
    for finite arguments that are not zero.  Its values are not part of the
    repository: what is proved below holds for every such function. *)
Variable libm_atan2 : float -> float -> float.

(** [math.atan2 y x].  Where an argument is a zero, an infinity or not a
    number the result is fixed (C standard, Annex F 9.1.4): 0 or pi on the
    x axis, pi/2 on the y axis, by the signs of the arguments. *)
Definition atan2 (y x : float) : float :=
  if is_nan x || is_nan y then nan
  else if is_infinity y then
    if is_infinity x then
      if get_sign x then copysign (0.75 * pi) y else copysign (0.25 * pi) y
    else copysign (0.5 * pi) y
  else if is_infinity x || is_zero y then
    if get_sign x then copysign pi y else copysign 0 y
  else if is_zero x then copysign (0.5 * pi) y
  else libm_atan2 y x.

Definition polar_angle (origin point : Point2D) : float :=
  let dx := x point - x origin in
  let dy := y point - y origin in
  atan2 dy dx.

Record ConvexHull2D : Type := mkConvexHull2D {
  points : list Point2D;
  hull : list Point2D
}.

Definition init (pts : list Point2D) : result ConvexHull2D :=
  if (length pts <? 3)%nat then Raise (ValueError too_few_points_msg)
  else Return {| points := pts; hull := [] |}.

Definition same_angle (origin a b : Point2D) : bool :=
  abs (polar_angle origin a - polar_angle origin b) <? 1e-9.

Fixpoint remove_same_angle_loop (origin : Point2D)
    (filtered pts : list Point2D) : list Point2D :=
  match pts with
  | [] => filtered
  | p :: rest =>
      match filtered with
      | [] => remove_same_angle_loop origin [p] rest
      | last :: before =>
          if same_angle origin last p then
            if distance_to origin last <? distance_to origin p
            then remove_same_angle_loop origin (p :: before) rest
            else remove_same_angle_loop origin filtered rest
          else remove_same_angle_loop origin (p :: filtered) rest
      end
  end.

Definition remove_same_angle_points (origin : Point2D)
    (pts : list Point2D) : list Point2D :=
  match pts with
  | [] => []
  | first :: rest => rev (remove_same_angle_loop origin [first] rest)
  end.

Fixpoint pop_while (p : Point2D) (stack : list Point2D) : list Point2D :=
  match stack with
  | top :: ((second :: _) as below) =>
      if negb (ccw second top p) then pop_while p below else stack
  | _ => stack
  end.

Definition scan_step (stack : list Point2D) (p : Point2D) : list Point2D :=
  p :: pop_while p stack.

Definition min_key (p : Point2D) : float * float := (y p, x p).

Definition sort_key (start p : Point2D) : float * float :=
  (polar_angle start p, distance_to start p).

Definition graham_scan (self : ConvexHull2D)
  : result (list Point2D * ConvexHull2D) :=
  do start <- py_min min_key (points self);
  let other_points :=
    filter (fun p => negb (Point2D_eq p start)) (points self) in
  let sorted_points := sorted (sort_key start) other_points in
  let filtered_points := remove_same_angle_points start sorted_points in
  if (length filtered_points <? 2)%nat then
    Return (start :: filtered_points, self)
  else
    let stack := [nth 1 filtered_points start; nth 0 filtered_points start;
                  start] in
    let stack := fold_left scan_step (skipn 2 filtered_points) stack in
    let hull := rev stack in
    Return (hull, {| points := points self; hull := hull |}).

(** The candidates handed to the scan: the value of [filtered_points]. *)
Definition filtered_of (start : Point2D) (pts : list Point2D) : list Point2D :=
  remove_same_angle_points start
    (sorted (sort_key start)
       (filter (fun p => negb (Point2D_eq p start)) pts)).
End Atan2.

(** What the scan has checked of its stack: each three neighbours passed
    [ccw] when the upper one was appended, but for the three the scan starts
    from, the pivot [s] and the first two candidates [f0] and [f1], which
    are never checked as long as they stay at the bottom. *)
Fixpoint tested (s f0 f1 : Point2D) (stack : list Point2D) : Prop :=
  match stack with
  | [] => True
  | c :: below =>
      match below with
      | b :: a :: rest =>
          ccw a b c = true \/ (rest = [] /\ a = s /\ b = f0 /\ c = f1)
      | _ => True
      end /\ tested s f0 f1 below
  end.

(** The rational number a finite double stands for (0 for the others). *)
Definition exact (f : float) : Q :=
  match Prim2SF f with
  | S754_finite s m e =>
      ((if s then -1 else 1) * inject_Z (Zpos m) * Qpower 2 e)%Q
  | _ => 0%Q
  end.

(** The cross product of [orientation] without rounding: over the
    rationals, on the values of the coordinates. *)
Definition exact_orientation_val (p q r : Point2D) : Q :=
  ((exact (y q) - exact (y p)) * (exact (x r) - exact (x q))
   - (exact (x q) - exact (x p)) * (exact (y r) - exact (y q)))%Q.

(** The sign of that cross product: [Lt] for a counter-clockwise turn,
    [Eq] for three points of one line, [Gt] for a clockwise turn. *)
Definition exact_turn (p q r : Point2D) : comparison :=
  (exact_orientation_val p q r ?= 0)%Q.

(** The order of the values of two doubles. *)
Definition exact_compare (a b : float) : comparison :=
  (exact a ?= exact b)%Q.

(** An engine as [__init__] leaves it. *)
Definition engine (pts : list Point2D) : ConvexHull2D :=
  {| points := pts; hull := [] |}.

(** Inputs on which rounding shows. *)

(** Three points that are on one diagonal but for a coordinate of size
    1e-17, and three points of one diagonal whose coordinates multiply
    beyond the largest double. *)
Definition near_diagonal : Point2D * Point2D * Point2D :=
  ({| x := 0; y := 0 |}, {| x := 1; y := 1 |}, {| x := -1e-17; y := 1e-17 |}).
Definition far_diagonal : Point2D * Point2D * Point2D :=
  ({| x := 0; y := 0 |}, {| x := 0x1p600; y := 0x1p600 |},
   {| x := 0x1p601; y := 0x1p601 |}).

(** A right triangle with legs of length 1e-200 along the axes. *)
Definition tiny0 : Point2D := {| x := 0; y := 0 |}.
Definition tiny1 : Point2D := {| x := 1e-200; y := 0 |}.
Definition tiny2 : Point2D := {| x := 0; y := 1e-200 |}.
Definition tiny_triangle : list Point2D := [tiny0; tiny1; tiny2].

(** Four points; the third lies within the triangle of the other three,
    3e-18 off its edge. *)
Definition dent0 : Point2D := {| x := 0; y := 0 |}.
Definition dent1 : Point2D := {| x := 0.1; y := 0 |}.
Definition dent2 : Point2D := {| x := 0.4; y := 0.1 |}.
Definition dent3 : Point2D := {| x := 1; y := 0.3 |}.
Definition dented : list Point2D := [dent0; dent1; dent2; dent3].

(** An arc tangent that returns, for the two points of [dented] that are
    off the x axis, what [math.atan2] returns for them. *)
Definition angles_of_dented (libm_atan2 : float -> float -> float) : Prop :=
  libm_atan2 0.1 0.4 = 0.24497866312686414 /\
  libm_atan2 0.3 1 = 0.2914567944778671.

(** Three points of the x axis, and the same three in another order. *)
Definition level0 : Point2D := {| x := -1; y := 0 |}.
Definition level1 : Point2D := {| x := 1e-17; y := 0 |}.
Definition level2 : Point2D := {| x := 2e-17; y := 0 |}.
Definition level_line : list Point2D := [level0; level1; level2].
Definition level_line_swapped : list Point2D := [level0; level2; level1].

(** The corners of the unit square in two orders, and an arc tangent that
    knows the angle of the diagonal. *)
Definition unit_square : list Point2D :=
  [{| x := 0; y := 0 |}; {| x := 1; y := 0 |}; {| x := 1; y := 1 |};
   {| x := 0; y := 1 |}].
Definition atan2_of_diagonal (y x : float) : float := 0.25 * pi.
Definition unit_square_reversed : list Point2D :=
  [{| x := 0; y := 1 |}; {| x := 1; y := 1 |}; {| x := 1; y := 0 |};
   {| x := 0; y := 0 |}].

End Machine.

(** * Properties *)

(** ** Comparisons *)

Lemma Reqb_true (a b : R) : Reqb a b = true <-> a = b.
Proof. unfold Reqb. destruct (Req_dec_T a b); split; congruence. Qed.

Lemma Reqb_false (a b : R) : Reqb a b = false <-> a <> b.
Proof. unfold Reqb. destruct (Req_dec_T a b); split; congruence. Qed.

Lemma Rltb_true (a b : R) : Rltb a b = true <-> a < b.
Proof. unfold Rltb. destruct (Rlt_dec a b); split; intros; congruence || lra. Qed.

Lemma Rltb_false (a b : R) : Rltb a b = false <-> b <= a.
Proof. unfold Rltb. destruct (Rlt_dec a b); split; intros; congruence || lra. Qed.

Lemma tuple_lt_true (k1 k2 : R * R) :
  tuple_lt k1 k2 = true <->
  fst k1 < fst k2 \/ (fst k1 = fst k2 /\ snd k1 < snd k2).
Proof.
  unfold tuple_lt. destruct (Reqb (fst k1) (fst k2)) eqn:E.
  - apply Reqb_true in E. rewrite Rltb_true. split; [tauto | lra].
  - apply Reqb_false in E. rewrite Rltb_true. split; [tauto | lra].
Qed.

Lemma tuple_lt_false (k1 k2 : R * R) :
  tuple_lt k1 k2 = false <->
  fst k2 < fst k1 \/ (fst k1 = fst k2 /\ snd k2 <= snd k1).
Proof.
  unfold tuple_lt. destruct (Reqb (fst k1) (fst k2)) eqn:E.
  - apply Reqb_true in E. rewrite Rltb_false. split; [tauto | lra].
  - apply Reqb_false in E. rewrite Rltb_false. split; lra.
Qed.

Lemma Point2D_eq_true (p q : Point2D) : Point2D_eq p q = true <-> p = q.
Proof.
  unfold Point2D_eq. rewrite andb_true_iff, !Reqb_true.
  destruct p, q; simpl. split.
  - intros [-> ->]. reflexivity.
  - intros H. injection H. auto.
Qed.

Lemma Point2D_eq_false (p q : Point2D) : Point2D_eq p q = false <-> p <> q.
Proof.
  rewrite <- Point2D_eq_true. destruct (Point2D_eq p q); split; congruence.
Qed.

(** ** Orientation *)

Lemma orientation_cases (p q r : Point2D) :
  (orientation_val p q r = 0 /\ orientation p q r = Collinear) \/
  (0 < orientation_val p q r /\ orientation p q r = Clockwise) \/
  (orientation_val p q r < 0 /\ orientation p q r = CounterClockwise).
Proof.
  unfold orientation.
  destruct (Reqb (orientation_val p q r) 0) eqn:E0.
  - apply Reqb_true in E0. left. split; [assumption | reflexivity].
  - apply Reqb_false in E0. right.
    destruct (Rltb 0 (orientation_val p q r)) eqn:E1.
    + apply Rltb_true in E1. left. split; [assumption | reflexivity].
    + apply Rltb_false in E1. right. split; [lra | reflexivity].
Qed.

Lemma ccw_true (p q r : Point2D) :
  ccw p q r = true <-> orientation_val p q r < 0.
Proof.
  unfold ccw. rewrite Z.eqb_eq.
  destruct (orientation_cases p q r) as [[Hv Ho] | [[Hv Ho] | [Hv Ho]]];
    rewrite Ho; unfold Collinear, Clockwise, CounterClockwise;
    split; intros; try lra; try discriminate; reflexivity.
Qed.

Lemma ccw_false (p q r : Point2D) :
  ccw p q r = false <-> 0 <= orientation_val p q r.
Proof.
  rewrite <- not_true_iff_false, ccw_true. lra.
Qed.

Lemma ccw_CounterClockwise (p q r : Point2D) :
  ccw p q r = true <-> orientation p q r = CounterClockwise.
Proof. unfold ccw, CounterClockwise. apply Z.eqb_eq. Qed.

Lemma orientation_Collinear (p q r : Point2D) :
  orientation p q r = Collinear <-> orientation_val p q r = 0.
Proof.
  destruct (orientation_cases p q r) as [[Hv Ho] | [[Hv Ho] | [Hv Ho]]];
    rewrite Ho; unfold Collinear, Clockwise, CounterClockwise;
    split; intros; try lra; try discriminate; reflexivity.
Qed.

(** In exact arithmetic [orientation] returns the class of the sign of the
    cross product (q.y - p.y) * (r.x - q.x) - (q.x - p.x) * (r.y - q.y):
    Collinear exactly when it is zero, Clockwise exactly when it is
    positive, CounterClockwise exactly when it is negative; and [ccw] holds
    exactly when [orientation] is CounterClockwise.  What [orientation] does
    with the rounded value is the subject of
    [orientation_classifies_computed_value] below. *)
Theorem orientation_sign_classes (p q r : Point2D) :
  let val := (y q - y p) * (x r - x q) - (x q - x p) * (y r - y q) in
  (val = 0 <-> orientation p q r = Collinear) /\
  (0 < val <-> orientation p q r = Clockwise) /\
  (val < 0 <-> orientation p q r = CounterClockwise) /\
  (ccw p q r = true <-> orientation p q r = CounterClockwise).
Proof.
  intros val.
  assert (Hval : val = orientation_val p q r) by reflexivity.
  rewrite Hval. clear Hval val.
  unfold ccw. rewrite Z.eqb_eq.
  destruct (orientation_cases p q r) as [[Hv Ho] | [[Hv Ho] | [Hv Ho]]];
    rewrite Ho; unfold Collinear, Clockwise, CounterClockwise;
    repeat split; intros; try lra; try discriminate; try reflexivity.
Qed.

(** ** The constructor and the dispatcher *)

Lemma init_ok (pts : list Point2D) :
  (3 <= length pts)%nat ->
  init pts = Return {| points := pts; hull := [] |}.
Proof.
  intros H. unfold init.
  destruct (Nat.ltb_spec (length pts) 3); [lia | reflexivity].
Qed.

Lemma init_inv (pts : list Point2D) (self : ConvexHull2D) :
  init pts = Return self ->
  (3 <= length pts)%nat /\ self = {| points := pts; hull := [] |}.
Proof.
  unfold init. destruct (Nat.ltb_spec (length pts) 3); intros H0.
  - discriminate.
  - injection H0 as <-. split; [lia | reflexivity].
Qed.

(** C1. With the identifier "quick" the dispatcher hands back the result
    of [quick_hull], which is Python's [None], for every point list: no
    exception is raised. *)
Theorem compute_convex_hull_quick (pts : list Point2D) :
  compute_convex_hull pts "quick" = Return PyNone.
Proof. reflexivity. Qed.

Lemma compute_convex_hull_unknown (pts : list Point2D) (algorithm : string) :
  algorithm <> "graham"%string -> algorithm <> "quick"%string ->
  compute_convex_hull pts algorithm =
  Raise (ValueError (unknown_algorithm_msg algorithm)).
Proof.
  intros Hg Hq. unfold compute_convex_hull.
  apply String.eqb_neq in Hg. apply String.eqb_neq in Hq.
  rewrite Hg, Hq. reflexivity.
Qed.

(** ** [min]: the pivot *)

Section MinLoop.
Context {A : Type}.
Variable key : A -> R * R.

Lemma min_loop_In (rest : list A) (best : A) :
  In (min_loop key best rest) (best :: rest).
Proof.
  revert best. induction rest as [| item rest IH]; intros best; simpl.
  - left. reflexivity.
  - destruct (tuple_lt (key item) (key best)).
    + right. apply IH.
    + destruct (IH best) as [H | H]; [left | right; right]; assumption.
Qed.

Lemma min_loop_le_best (rest : list A) (best : A) :
  tuple_lt (key best) (key (min_loop key best rest)) = false.
Proof.
  revert best. induction rest as [| item rest IH]; intros best; simpl.
  - apply tuple_lt_false. right. split; [reflexivity | lra].
  - destruct (tuple_lt (key item) (key best)) eqn:E.
    + specialize (IH item). apply tuple_lt_true in E.
      apply tuple_lt_false in IH. apply tuple_lt_false. lra.
    + apply IH.
Qed.

Lemma min_loop_minimal (rest : list A) (best p : A) :
  In p (best :: rest) ->
  tuple_lt (key p) (key (min_loop key best rest)) = false.
Proof.
  revert best. induction rest as [| item rest IH]; intros best Hin.
  - destruct Hin as [<- | []]. apply min_loop_le_best.
  - destruct Hin as [<- | [<- | Hin]].
    + apply min_loop_le_best.
    + simpl. destruct (tuple_lt (key item) (key best)) eqn:E.
      * apply min_loop_le_best.
      * pose proof (min_loop_le_best rest best) as Hb.
        apply tuple_lt_false in E. apply tuple_lt_false in Hb.
        apply tuple_lt_false. lra.
    + simpl. destruct (tuple_lt (key item) (key best)) eqn:E.
      * apply IH. right. assumption.
      * apply IH. right. assumption.
Qed.
End MinLoop.

Lemma py_min_lowest_leftmost (pts : list Point2D) (start : Point2D) :
  py_min min_key pts = Return start -> lowest_leftmost start pts.
Proof.
  destruct pts as [| first rest]; simpl; [discriminate |].
  intros H. injection H as <-. split.
  - apply min_loop_In.
  - intros p Hp. pose proof (min_loop_minimal min_key rest first p Hp) as Hm.
    apply tuple_lt_false in Hm. unfold min_key in *. simpl in Hm. lra.
Qed.

Lemma other_points_above (pts : list Point2D) (start p : Point2D) :
  lowest_leftmost start pts ->
  In p (filter (fun q => negb (Point2D_eq q start)) pts) ->
  above start p.
Proof.
  intros [_ Hmin] Hin. apply filter_In in Hin. destruct Hin as [Hin Hne].
  apply negb_true_iff, Point2D_eq_false in Hne.
  destruct (Hmin p Hin) as [H | [Hy Hx]]; [left; assumption |].
  right. split; [assumption |].
  destruct (Req_dec_T (x start) (x p)) as [E | E]; [| lra].
  exfalso. apply Hne. destruct p, start; simpl in *. congruence.
Qed.

Lemma above_neq (start p : Point2D) : above start p -> p <> start.
Proof. intros H ->. unfold above in H. lra. Qed.

(** ** The scan keeps the pivot at the bottom and adds no point *)

Lemma pop_while_incl (p : Point2D) (stack : list Point2D) :
  incl (pop_while p stack) stack.
Proof.
  induction stack as [| top below IH]; simpl.
  - apply incl_refl.
  - destruct below as [| second below'].
    + apply incl_refl.
    + destruct (negb (ccw second top p)).
      * apply incl_tl. exact IH.
      * apply incl_refl.
Qed.

Lemma pop_while_bottom (p start : Point2D) (body : list Point2D) :
  exists body', pop_while p (body ++ [start]) = body' ++ [start] /\
                incl body' body.
Proof.
  induction body as [| top body IH].
  - exists []. split; [reflexivity | apply incl_refl].
  - simpl. destruct (body ++ [start]) as [| second below'] eqn:E.
    + destruct body; discriminate.
    + destruct (negb (ccw second top p)).
      * destruct IH as [body' [H1 H2]]. exists body'. split.
        -- exact H1.
        -- apply incl_tl. exact H2.
      * exists (top :: body). split.
        -- simpl. rewrite E. reflexivity.
        -- apply incl_refl.
Qed.

Lemma scan_bottom (start : Point2D) (rest body : list Point2D) :
  exists body', fold_left scan_step rest (body ++ [start]) = body' ++ [start] /\
                incl body' (rest ++ body).
Proof.
  revert body. induction rest as [| p rest IH]; intros body.
  - exists body. split; [reflexivity | apply incl_refl].
  - simpl. unfold scan_step at 2.
    destruct (pop_while_bottom p start body) as [b1 [H1 H2]].
    rewrite H1. destruct (IH (p :: b1)) as [b2 [H3 H4]].
    exists b2. split; [exact H3 |].
    intros q Hq. apply H4 in Hq. apply in_app_or in Hq.
    destruct Hq as [Hq | [<- | Hq]].
    + right. apply in_or_app. left. assumption.
    + left. reflexivity.
    + right. apply in_or_app. right. apply H2. assumption.
Qed.

(** ** [sorted] and the same-angle filter add no point either *)

Section Sorted.
Context {A : Type}.
Variable key : A -> R * R.

Lemma insert_sorted_perm (a : A) (l : list A) :
  Permutation (a :: l) (insert_sorted key a l).
Proof.
  induction l as [| b l IH]; simpl.
  - apply Permutation_refl.
  - destruct (tuple_lt (key b) (key a)).
    + eapply perm_trans; [apply perm_swap |]. apply perm_skip. exact IH.
    + apply Permutation_refl.
Qed.

Lemma sorted_perm (l : list A) : Permutation l (sorted key l).
Proof.
  induction l as [| a l IH]; simpl.
  - apply perm_nil.
  - eapply perm_trans; [| apply insert_sorted_perm].
    apply perm_skip. exact IH.
Qed.
End Sorted.

Lemma remove_same_angle_loop_incl (origin : Point2D)
    (pts filtered : list Point2D) :
  incl (remove_same_angle_loop origin filtered pts) (filtered ++ pts).
Proof.
  revert filtered. induction pts as [| p rest IH]; intros filtered; simpl.
  - rewrite app_nil_r. apply incl_refl.
  - destruct filtered as [| last before].
    + apply IH.
    + destruct (same_angle origin last p);
        [destruct (Rltb (distance_to origin last) (distance_to origin p)) |];
        intros q Hq; apply IH in Hq;
        rewrite in_app_iff in *; simpl in *; tauto.
Qed.

Lemma remove_same_angle_points_incl (origin : Point2D) (pts : list Point2D) :
  incl (remove_same_angle_points origin pts) pts.
Proof.
  destruct pts as [| first rest]; simpl.
  - apply incl_refl.
  - intros q Hq. apply in_rev in Hq.
    apply (remove_same_angle_loop_incl origin rest [first]) in Hq.
    exact Hq.
Qed.

(** ** The shape of a call of [graham_scan] *)

Lemma graham_scan_cases (self : ConvexHull2D) (start : Point2D) :
  py_min min_key (points self) = Return start ->
  (length (filtered_of start (points self)) < 2)%nat /\
  graham_scan self = Return (start :: filtered_of start (points self), self)
  \/
  exists f0 f1 rest,
    filtered_of start (points self) = f0 :: f1 :: rest /\
    graham_scan self =
    Return (rev (fold_left scan_step rest [f1; f0; start]),
            {| points := points self;
               hull := rev (fold_left scan_step rest [f1; f0; start]) |}).
Proof.
  intros Hmin. unfold graham_scan. rewrite Hmin. simpl.
  fold (filtered_of start (points self)).
  destruct (filtered_of start (points self)) as [| f0 [| f1 rest]] eqn:E.
  - left. split; [simpl; lia | reflexivity].
  - left. split; [simpl; lia | reflexivity].
  - right. exists f0, f1, rest. split; reflexivity.
Qed.

Lemma filtered_of_incl (start : Point2D) (pts : list Point2D) :
  incl (filtered_of start pts)
       (filter (fun p => negb (Point2D_eq p start)) pts).
Proof.
  intros q Hq. unfold filtered_of in Hq.
  apply remove_same_angle_points_incl in Hq.
  eapply Permutation_in; [apply Permutation_sym, sorted_perm | exact Hq].
Qed.

Lemma py_min_total (pts : list Point2D) :
  pts <> [] -> exists start, py_min min_key pts = Return start.
Proof.
  destruct pts as [| first rest]; [congruence |].
  intros _. eexists. reflexivity.
Qed.

(** A call on an engine that holds at least one point returns: a pivot
    first, then points that all come from the input. *)
Lemma graham_scan_returns (self : ConvexHull2D) :
  points self <> [] ->
  exists start body self',
    graham_scan self = Return (start :: body, self') /\
    lowest_leftmost start (points self) /\
    incl body (filter (fun p => negb (Point2D_eq p start)) (points self)).
Proof.
  intros Hne. destruct (py_min_total _ Hne) as [start Hmin].
  pose proof (py_min_lowest_leftmost _ _ Hmin) as Hlow.
  pose proof (filtered_of_incl start (points self)) as Hincl.
  destruct (graham_scan_cases self start Hmin)
    as [[_ Hg] | [f0 [f1 [rest [Hf Hg]]]]].
  - exists start, (filtered_of start (points self)), self. auto.
  - destruct (scan_bottom start rest [f1; f0]) as [body' [Hs Hb]].
    simpl in Hs. rewrite Hs in Hg. rewrite rev_app_distr in Hg. simpl in Hg.
    eexists start, (rev body'), _. split; [exact Hg |]. split; [exact Hlow |].
    intros q Hq. apply in_rev in Hq. apply Hb in Hq. apply Hincl.
    rewrite Hf. apply in_app_or in Hq. simpl in *. tauto.
Qed.

(** C6. The constructor raises its error exactly when fewer than 3 points
    are supplied (every list element counts).  Otherwise it returns an
    engine holding the given list unchanged and an empty hull, and on such
    an engine [graham_scan] returns a hull: no error is left for later. *)
Theorem init_raises_iff_fewer_than_3 (pts : list Point2D) :
  (init pts = Raise (ValueError too_few_points_msg) <-> (length pts < 3)%nat)
  /\ ((exists self, init pts = Return self) <-> (3 <= length pts)%nat)
  /\ (forall self, init pts = Return self ->
        points self = pts /\ hull self = [] /\
        exists h self', graham_scan self = Return (h, self')).
Proof.
  split; [| split].
  - unfold init. destruct (Nat.ltb_spec (length pts) 3); split; intros;
      try reflexivity; try discriminate; lia.
  - split.
    + intros [self H]. apply init_inv in H. tauto.
    + intros H. eexists. apply init_ok. exact H.
  - intros self H. apply init_inv in H. destruct H as [Hlen ->]. simpl.
    split; [reflexivity |]. split; [reflexivity |].
    destruct (graham_scan_returns {| points := pts; hull := [] |})
      as [start [body [self' [Hg _]]]].
    + simpl. destruct pts; simpl in Hlen; [lia | discriminate].
    + eauto.
Qed.

(** C5. On an engine built from a list of at least 3 points, [graham_scan]
    returns a hull each of whose vertices has exactly the coordinates of
    some point of the input list. *)
Theorem graham_scan_vertices_from_input
    (pts : list Point2D) (self : ConvexHull2D) :
  init pts = Return self ->
  exists h self',
    graham_scan self = Return (h, self') /\
    forall v, In v h -> exists p, In p pts /\ x v = x p /\ y v = y p.
Proof.
  intros H. apply init_inv in H. destruct H as [Hlen ->].
  destruct (graham_scan_returns {| points := pts; hull := [] |})
    as [start [body [self' [Hg [[Hin _] Hb]]]]].
  - simpl. destruct pts; simpl in Hlen; [lia | discriminate].
  - simpl in *. exists (start :: body), self'. split; [exact Hg |].
    intros v [<- | Hv].
    + exists start. auto.
    + apply Hb, filter_In in Hv. exists v. tauto.
Qed.

(** C4. On an engine built from a list of at least 3 points, the hull
    returned by [graham_scan] begins with an input point of minimum y and,
    among the points of that y, of minimum x; being the first vertex, that
    point is a vertex of the hull. *)
Theorem graham_scan_starts_at_pivot
    (pts : list Point2D) (self : ConvexHull2D) :
  init pts = Return self ->
  exists h self' start,
    graham_scan self = Return (h, self') /\
    nth_error h 0 = Some start /\ In start h /\ In start pts /\
    forall p, In p pts -> y start < y p \/ (y start = y p /\ x start <= x p).
Proof.
  intros H. apply init_inv in H. destruct H as [Hlen ->].
  destruct (graham_scan_returns {| points := pts; hull := [] |})
    as [start [body [self' [Hg [[Hin Hmin] _]]]]].
  - simpl. destruct pts; simpl in Hlen; [lia | discriminate].
  - simpl in *. exists (start :: body), self', start.
    repeat split; auto. left. reflexivity.
Qed.

(** ** Polar angles around the pivot *)

Lemma atan2_upper (dy dx : R) : 0 < dy -> atan2 dy dx = PI / 2 - atan (dx / dy).
Proof.
  intros Hy. unfold atan2.
  destruct (Rlt_dec 0 dx) as [Hx | Hx].
  - replace (dy / dx) with (/ (dx / dy)) by (field; lra).
    apply atan_inv. apply Rdiv_lt_0_compat; assumption.
  - destruct (Rlt_dec dx 0) as [Hx' | Hx'].
    + destruct (Rle_dec 0 dy) as [_ | Hn]; [| lra].
      replace (dy / dx) with (- / (- dx / dy)) by (field; lra).
      rewrite atan_opp, atan_inv by (apply Rdiv_lt_0_compat; lra).
      replace (- dx / dy) with (- (dx / dy)) by (field; lra).
      rewrite atan_opp. lra.
    + assert (dx = 0) by lra. subst dx.
      destruct (Rlt_dec 0 dy); [| lra].
      unfold Rdiv. rewrite Rmult_0_l, atan_0. lra.
Qed.

Lemma atan2_axis (dx : R) : 0 < dx -> atan2 0 dx = 0.
Proof.
  intros Hx. unfold atan2. destruct (Rlt_dec 0 dx); [| lra].
  unfold Rdiv. rewrite Rmult_0_l. apply atan_0.
Qed.

Lemma atan_lt_iff (a b : R) : atan a < atan b <-> a < b.
Proof.
  split; [| apply atan_increasing].
  intros H. destruct (Rtotal_order a b) as [Hlt | [Heq | Hgt]].
  - assumption.
  - subst. lra.
  - apply atan_increasing in Hgt. lra.
Qed.

Lemma polar_angle_lt_iff (s p q : Point2D) :
  above s p -> above s q ->
  (polar_angle s p < polar_angle s q <-> orientation_val s p q < 0).
Proof.
  unfold above, polar_angle, orientation_val.
  intros [Hp | [Hp Hpx]] [Hq | [Hq Hqx]].
  - rewrite !atan2_upper by lra.
    assert (E : PI / 2 - atan ((x p - x s) / (y p - y s)) <
                PI / 2 - atan ((x q - x s) / (y q - y s)) <->
                (x q - x s) / (y q - y s) < (x p - x s) / (y p - y s)).
    { split; intros H; [apply atan_lt_iff; lra | apply atan_lt_iff in H; lra]. }
    rewrite E.
    assert (E2 : (x q - x s) / (y q - y s) < (x p - x s) / (y p - y s) <->
            (x q - x s) * (y p - y s) < (x p - x s) * (y q - y s)).
    { split; intros H.
      - apply (Rmult_lt_compat_r ((y q - y s) * (y p - y s))) in H; [| nra].
        replace ((x q - x s) / (y q - y s) * ((y q - y s) * (y p - y s)))
          with ((x q - x s) * (y p - y s)) in H by (field; lra).
        replace ((x p - x s) / (y p - y s) * ((y q - y s) * (y p - y s)))
          with ((x p - x s) * (y q - y s)) in H by (field; lra).
        exact H.
      - apply (Rmult_lt_reg_r ((y q - y s) * (y p - y s))); [nra |].
        replace ((x q - x s) / (y q - y s) * ((y q - y s) * (y p - y s)))
          with ((x q - x s) * (y p - y s)) by (field; lra).
        replace ((x p - x s) / (y p - y s) * ((y q - y s) * (y p - y s)))
          with ((x p - x s) * (y q - y s)) by (field; lra).
        exact H. }
    rewrite E2. split; intros; nra.
  - replace (y q - y s) with 0 by lra.
    rewrite (atan2_upper (y p - y s)), atan2_axis by lra.
    pose proof (atan_bound ((x p - x s) / (y p - y s))).
    split; intros; [lra | nra].
  - replace (y p - y s) with 0 by lra.
    rewrite (atan2_upper (y q - y s)), atan2_axis by lra.
    pose proof (atan_bound ((x q - x s) / (y q - y s))).
    split; intros; [nra | lra].
  - replace (y p - y s) with 0 by lra. replace (y q - y s) with 0 by lra.
    rewrite !atan2_axis by lra. split; intros; [lra | nra].
Qed.

(** ** Sorted lists *)

Section StronglySortedFacts.
Context {A : Type}.
Variable R : A -> A -> Prop.

Lemma StronglySorted_suffix (pre l : list A) :
  StronglySorted R (pre ++ l) -> StronglySorted R l.
Proof.
  induction pre as [| a pre IH]; simpl; intros H; [exact H |].
  apply StronglySorted_inv in H. tauto.
Qed.

Lemma StronglySorted_snoc (l : list A) (a : A) :
  StronglySorted R l -> Forall (fun b => R b a) l ->
  StronglySorted R (l ++ [a]).
Proof.
  induction l as [| b l IH]; simpl; intros Hs Hf.
  - constructor; constructor.
  - apply StronglySorted_inv in Hs. destruct Hs as [Hs Hb].
    inversion Hf as [| ? ? Hba Hf']; subst.
    constructor; [auto |].
    apply Forall_app. split; [exact Hb | constructor; [exact Hba | constructor]].
Qed.

Lemma StronglySorted_NoDup (l : list A) :
  (forall a, ~ R a a) -> StronglySorted R l -> NoDup l.
Proof.
  intros Hirr. induction 1 as [| a l Hs IH Hf]; constructor; [| exact IH].
  intros Hin. rewrite Forall_forall in Hf. exact (Hirr a (Hf a Hin)).
Qed.
End StronglySortedFacts.

Lemma StronglySorted_rev {A : Type} (R : A -> A -> Prop) (l : list A) :
  StronglySorted R l -> StronglySorted (fun a b => R b a) (rev l).
Proof.
  induction 1 as [| a l Hs IH Hf]; simpl; [constructor |].
  apply StronglySorted_snoc; [exact IH |].
  apply Forall_rev. exact Hf.
Qed.

Section SortedSorted.
Context {A : Type}.
Variable key : A -> R * R.

Lemma key_le_trans (a b c : A) :
  key_le key a b -> key_le key b c -> key_le key a c.
Proof.
  unfold key_le. rewrite !tuple_lt_false. lra.
Qed.

Lemma key_lt_le (a b : A) :
  tuple_lt (key a) (key b) = true -> key_le key a b.
Proof.
  unfold key_le. rewrite tuple_lt_true, tuple_lt_false. lra.
Qed.

Lemma insert_sorted_sorted (a : A) (l : list A) :
  StronglySorted (key_le key) l ->
  StronglySorted (key_le key) (insert_sorted key a l).
Proof.
  induction 1 as [| b l Hs IH Hf]; simpl.
  - constructor; constructor.
  - destruct (tuple_lt (key b) (key a)) eqn:E.
    + constructor; [exact IH |].
      eapply Permutation_Forall; [apply insert_sorted_perm |].
      constructor; [apply key_lt_le; exact E | exact Hf].
    + constructor; [constructor; assumption |].
      constructor; [exact E |].
      eapply Forall_impl; [| exact Hf].
      intros c Hc. eapply key_le_trans; [exact E | exact Hc].
Qed.

Lemma sorted_sorted (l : list A) : StronglySorted (key_le key) (sorted key l).
Proof.
  induction l as [| a l IH]; simpl.
  - constructor.
  - apply insert_sorted_sorted. exact IH.
Qed.
End SortedSorted.

(** ** The candidates have strictly increasing polar angles *)

Lemma angle_tolerance_pos : 0 < angle_tolerance.
Proof. unfold angle_tolerance. lra. Qed.

Lemma same_angle_false_neq (s a b : Point2D) :
  same_angle s a b = false -> polar_angle s a <> polar_angle s b.
Proof.
  unfold same_angle. rewrite Rltb_false. intros H E.
  rewrite E, Rminus_diag, Rabs_R0 in H.
  pose proof angle_tolerance_pos. lra.
Qed.

Lemma sorted_angle_le (s : Point2D) (l : list Point2D) :
  StronglySorted (angle_le s) (sorted (sort_key s) l).
Proof.
  pose proof (sorted_sorted (sort_key s) l) as H.
  induction H as [| a m Hs IH Hf]; constructor; [exact IH |].
  eapply Forall_impl; [| exact Hf].
  intros b Hb. unfold key_le in Hb. apply tuple_lt_false in Hb.
  unfold sort_key in Hb. simpl in Hb. unfold angle_le. lra.
Qed.

Lemma remove_same_angle_loop_sorted (s : Point2D) (pts : list Point2D) :
  forall last before,
    StronglySorted (angle_gt s) (last :: before) ->
    StronglySorted (angle_le s) pts ->
    Forall (angle_le s last) pts ->
    StronglySorted (angle_gt s)
      (remove_same_angle_loop s (last :: before) pts).
Proof.
  induction pts as [| p rest IH]; intros last before Hf Hs Hl; simpl.
  - exact Hf.
  - apply StronglySorted_inv in Hs. destruct Hs as [Hs Hp].
    inversion Hl as [| ? ? Hlp Hl']; subst.
    apply StronglySorted_inv in Hf. destruct Hf as [Hb Hlb].
    destruct (same_angle s last p) eqn:Esame.
    + destruct (Rltb (distance_to s last) (distance_to s p)).
      * apply IH; [| exact Hs | exact Hp].
        constructor; [exact Hb |].
        eapply Forall_impl; [| exact Hlb].
        unfold angle_gt, angle_le in *. intros; lra.
      * apply IH; [| exact Hs | exact Hl'].
        constructor; assumption.
    + apply same_angle_false_neq in Esame.
      assert (Hlt : angle_gt s p last)
        by (unfold angle_gt, angle_le in *; lra).
      apply IH; [| exact Hs | exact Hp].
      constructor; [constructor; assumption |].
      constructor; [exact Hlt |].
      eapply Forall_impl; [| exact Hlb].
      unfold angle_gt in *. intros; lra.
Qed.

Lemma filtered_of_sorted (s : Point2D) (pts : list Point2D) :
  StronglySorted (angle_lt s) (filtered_of s pts).
Proof.
  unfold filtered_of, remove_same_angle_points.
  pose proof (sorted_angle_le s
                (filter (fun p => negb (Point2D_eq p s)) pts)) as Hs.
  destruct (sorted (sort_key s) (filter (fun p => negb (Point2D_eq p s)) pts))
    as [| first rest]; [constructor |].
  apply StronglySorted_inv in Hs. destruct Hs as [Hs Hf].
  apply (StronglySorted_rev (angle_gt s)).
  apply remove_same_angle_loop_sorted; [| exact Hs | exact Hf].
  constructor; constructor.
Qed.

Lemma filtered_of_above (s : Point2D) (pts : list Point2D) :
  lowest_leftmost s pts -> Forall (above s) (filtered_of s pts).
Proof.
  intros Hlow. apply Forall_forall. intros p Hp.
  apply filtered_of_incl in Hp. eapply other_points_above; eassumption.
Qed.

(** ** The scan *)

Lemma stack_ok_suffix (pre stack : list Point2D) :
  stack_ok (pre ++ stack) -> stack_ok stack.
Proof.
  induction pre as [| c pre IH]; simpl; [auto | tauto].
Qed.

Lemma stack_ok_nth (d : Point2D) (stack : list Point2D) :
  stack_ok stack ->
  forall j, (j + 2 < length stack)%nat ->
  ccw (nth (j + 2) stack d) (nth (j + 1) stack d) (nth j stack d) = true.
Proof.
  induction stack as [| c below IH]; simpl; [intros _ j Hj; lia |].
  intros [Hc Hok] j Hj. destruct j as [| j].
  - destruct below as [| b [| a below']]; simpl in *; try lia. exact Hc.
  - simpl. apply IH; [exact Hok | lia].
Qed.

Lemma ccw_pivot (s a b : Point2D) :
  above s a -> above s b -> angle_lt s a b -> ccw s a b = true.
Proof.
  intros Ha Hb Hlt. apply ccw_true. apply polar_angle_lt_iff; assumption.
Qed.

Lemma pop_while_keeps (s p : Point2D) (body : list Point2D) :
  body <> [] -> Forall (above s) body -> above s p ->
  Forall (fun a => angle_lt s a p) body ->
  stack_ok (body ++ [s]) ->
  exists pre body',
    body = pre ++ body' /\ body' <> [] /\
    pop_while p (body ++ [s]) = body' ++ [s] /\
    stack_ok (p :: body' ++ [s]).
Proof.
  induction body as [| top body IH]; intros Hne Hab Hp Hlt Hok; [congruence |].
  inversion Hab as [| ? ? Htop Hab']; subst.
  inversion Hlt as [| ? ? Htp Hlt']; subst.
  destruct body as [| second body].
  - exists [], [top]. simpl.
    rewrite (ccw_pivot s top p Htop Hp Htp). simpl.
    repeat split; congruence.
  - simpl. destruct (ccw second top p) eqn:E; simpl.
    + exists [], (top :: second :: body). simpl.
      repeat split; try congruence; try exact E; apply Hok.
    + destruct IH as [pre [body' [H1 [H2 [H3 H4]]]]];
        [congruence | exact Hab' | exact Hp | exact Hlt' | apply Hok |].
      exists (top :: pre), body'.
      split; [rewrite H1; reflexivity |]. split; [exact H2 |].
      split; [exact H3 | exact H4].
Qed.

Lemma scan_step_inv (s p : Point2D) (stack : list Point2D) :
  scan_inv s stack -> above s p ->
  (forall a, In a stack -> a <> s -> angle_lt s a p) ->
  scan_inv s (scan_step stack p).
Proof.
  intros [body [-> [Hlen [Hab [Hs Hok]]]]] Hp Hlt.
  assert (Hlt' : Forall (fun a => angle_lt s a p) body).
  { apply Forall_forall. intros a Ha. apply Hlt.
    - apply in_or_app. left. exact Ha.
    - apply above_neq. rewrite Forall_forall in Hab. auto. }
  destruct (pop_while_keeps s p body) as [pre [body' [H1 [H2 [H3 H4]]]]];
    try assumption.
  { destruct body; simpl in Hlen; [lia | congruence]. }
  unfold scan_step. rewrite H3. exists (p :: body').
  subst body. apply Forall_app in Hab. apply Forall_app in Hlt'.
  split; [reflexivity |]. split.
  { destruct body'; simpl; [congruence | lia]. }
  split; [constructor; tauto |]. split; [| exact H4].
  constructor.
  - eapply StronglySorted_suffix. exact Hs.
  - destruct Hlt' as [_ Hlt']. exact Hlt'.
Qed.

Lemma scan_inv_top (s : Point2D) (stack : list Point2D) (a top : Point2D) :
  scan_inv s stack -> nth_error stack 0 = Some top ->
  In a stack -> a <> s -> a = top \/ angle_lt s a top.
Proof.
  intros [body [-> [Hlen [Hab [Hs Hok]]]]] Htop Ha Hne.
  apply in_app_or in Ha. destruct Ha as [Ha | [Ha | []]]; [| congruence].
  destruct body as [| t body]; simpl in *; [lia |].
  injection Htop as ->. destruct Ha as [-> | Ha]; [left; reflexivity |].
  right. apply StronglySorted_inv in Hs. destruct Hs as [_ Hf].
  rewrite Forall_forall in Hf. exact (Hf a Ha).
Qed.

Lemma scan_fold_inv (s : Point2D) (rest : list Point2D) :
  forall stack,
    scan_inv s stack -> Forall (above s) rest ->
    StronglySorted (angle_lt s) rest ->
    (forall a p, In a stack -> a <> s -> In p rest -> angle_lt s a p) ->
    scan_inv s (fold_left scan_step rest stack).
Proof.
  induction rest as [| p rest IH]; intros stack Hinv Hab Hs Hlt; simpl.
  - exact Hinv.
  - inversion Hab as [| ? ? Hp Hab']; subst.
    apply StronglySorted_inv in Hs. destruct Hs as [Hs Hpr].
    assert (Hstep : scan_inv s (scan_step stack p)).
    { apply scan_step_inv; try assumption.
      intros a Ha Hne. apply (Hlt a p Ha Hne). left. reflexivity. }
    apply IH; try assumption.
    intros a q Ha Hne Hq.
    destruct (scan_inv_top s (scan_step stack p) a p Hstep eq_refl Ha Hne)
      as [-> | Hap].
    + rewrite Forall_forall in Hpr. exact (Hpr q Hq).
    + rewrite Forall_forall in Hpr. specialize (Hpr q Hq).
      unfold angle_lt in *. lra.
Qed.

(** The stack the scan ends with, for the candidates [f0 :: f1 :: rest]. *)
Lemma scan_result_inv (s f0 f1 : Point2D) (rest : list Point2D) :
  Forall (above s) (f0 :: f1 :: rest) ->
  StronglySorted (angle_lt s) (f0 :: f1 :: rest) ->
  scan_inv s (fold_left scan_step rest [f1; f0; s]).
Proof.
  intros Hab Hs.
  inversion Hab as [| ? ? H0 Hab1]; subst.
  inversion Hab1 as [| ? ? H1 Hab2]; subst.
  apply StronglySorted_inv in Hs. destruct Hs as [Hs1 Hf0].
  apply StronglySorted_inv in Hs1. destruct Hs1 as [Hs2 Hf1].
  inversion Hf0 as [| ? ? H01 Hf0']; subst.
  apply scan_fold_inv; try assumption.
  - exists [f1; f0]. split; [reflexivity |]. split; [simpl; lia |].
    split; [constructor; [exact H1 | constructor; [exact H0 | constructor]] |].
    split.
    + constructor; [constructor; constructor |].
      constructor; [exact H01 | constructor].
    + simpl. split; [apply ccw_pivot; assumption | tauto].
  - intros a p [<- | [<- | [<- | []]]] Hne Hp; try congruence.
    + rewrite Forall_forall in Hf1. auto.
    + rewrite Forall_forall in Hf0'. auto.
Qed.

(** ** The hull as a cycle *)

Lemma orientation_val_cycle (a b c : Point2D) :
  orientation_val a b c = orientation_val c a b.
Proof. unfold orientation_val. ring. Qed.

Lemma wrap_ccw (s top a : Point2D) :
  above s top -> above s a -> angle_lt s a top ->
  ccw a top s = true /\ ccw top s a = true.
Proof.
  intros Ht Ha Hlt. apply (polar_angle_lt_iff s a top Ha Ht) in Hlt.
  split; apply ccw_true.
  - rewrite orientation_val_cycle. exact Hlt.
  - rewrite <- orientation_val_cycle. exact Hlt.
Qed.

Lemma scan_inv_ccw_cycle (s : Point2D) (stack : list Point2D) :
  scan_inv s stack -> ccw_cycle (rev stack).
Proof.
  intros [body [-> [Hlen [Hab [Hs Hok]]]]].
  destruct body as [| top br]; [simpl in Hlen; lia |].
  apply StronglySorted_inv in Hs. destruct Hs as [_ Htop].
  inversion Hab as [| ? ? Ht Hbr]; subst.
  rewrite Forall_forall in Htop, Hbr.
  set (st := (top :: br) ++ [s]) in *.
  assert (Hn : length st = S (S (length br))).
  { unfold st. rewrite length_app. simpl. lia. }
  simpl in Hlen.
  assert (Hlast : nth (S (length br)) st s = s).
  { unfold st. rewrite app_nth2; simpl; [| lia].
    replace (length br - length br)%nat with 0%nat by lia. reflexivity. }
  assert (Hmid : forall k, (1 <= k <= length br)%nat -> In (nth k st s) br).
  { intros k Hk. unfold st. rewrite app_nth1 by (simpl; lia).
    destruct k as [| k]; [lia |]. simpl. apply nth_In. lia. }
  intros i a b c Ha Hb Hc.
  rewrite length_rev, Hn in Hb, Hc.
  assert (Hi : (i < S (S (length br)))%nat).
  { rewrite <- Hn, <- (length_rev st). apply nth_error_Some. congruence. }
  apply (nth_error_nth _ _ s) in Ha, Hb, Hc. subst a b c.
  destruct (Nat.lt_ge_cases (i + 2) (S (S (length br)))) as [Hsmall | Hbig].
  - rewrite !Nat.mod_small by lia.
    rewrite !rev_nth by lia. rewrite Hn.
    pose proof (stack_ok_nth s st Hok (S (S (length br)) - S (i + 2))) as H.
    replace (S (S (length br)) - S (i + 2) + 2)%nat
      with (S (S (length br)) - S i)%nat in H by lia.
    replace (S (S (length br)) - S (i + 2) + 1)%nat
      with (S (S (length br)) - S (i + 1))%nat in H by lia.
    apply H. lia.
  - destruct (Nat.eq_dec i (length br)) as [-> | Hne].
    + replace (length br + 2)%nat with (S (S (length br))) by lia.
      rewrite Nat.Div0.mod_same, Nat.mod_small by lia.
      rewrite !rev_nth by lia. rewrite Hn.
      replace (S (S (length br)) - S (length br))%nat with 1%nat by lia.
      replace (S (S (length br)) - S (length br + 1))%nat with 0%nat by lia.
      replace (S (S (length br)) - 1)%nat with (S (length br)) by lia.
      rewrite Hlast.
      assert (Hin : In (nth 1 st s) br) by (apply Hmid; lia).
      change (nth 0 st s) with top.
      apply (wrap_ccw s top (nth 1 st s)); auto. exact (Htop _ Hin).
    + assert (i = S (length br)) by lia. subst i.
      replace (S (length br) + 1)%nat with (S (S (length br))) by lia.
      replace (S (length br) + 2)%nat
        with (1 + 1 * S (S (length br)))%nat by lia.
      rewrite Nat.Div0.mod_same, Nat.Div0.mod_add, Nat.mod_small by lia.
      rewrite !rev_nth by lia. rewrite Hn.
      replace (S (S (length br)) - S (S (length br)))%nat with 0%nat by lia.
      replace (S (S (length br)) - 1)%nat with (S (length br)) by lia.
      replace (S (S (length br)) - 2)%nat with (length br) by lia.
      rewrite Hlast.
      assert (Hin : In (nth (length br) st s) br) by (apply Hmid; lia).
      change (nth 0 st s) with top.
      apply (wrap_ccw s top (nth (length br) st s)); auto.
      exact (Htop _ Hin).
Qed.

(** The two ways [graham_scan] returns on a constructed engine. *)
Lemma graham_scan_structure (pts : list Point2D) (self : ConvexHull2D) :
  init pts = Return self ->
  exists start,
    lowest_leftmost start pts /\
    ((length (filtered_of start pts) < 2)%nat /\
     graham_scan self = Return (start :: filtered_of start pts, self)
     \/
     exists stack,
       scan_inv start stack /\
       graham_scan self =
       Return (rev stack, {| points := pts; hull := rev stack |})).
Proof.
  intros H. apply init_inv in H. destruct H as [Hlen ->].
  destruct (py_min_total pts) as [start Hmin].
  { destruct pts; simpl in Hlen; [lia | discriminate]. }
  pose proof (py_min_lowest_leftmost _ _ Hmin) as Hlow.
  exists start. split; [exact Hlow |].
  destruct (graham_scan_cases {| points := pts; hull := [] |} start Hmin)
    as [Hdeg | [f0 [f1 [rest [Hf Hg]]]]]; simpl in *.
  - left. exact Hdeg.
  - right. exists (fold_left scan_step rest [f1; f0; start]).
    split; [| exact Hg].
    apply scan_result_inv; rewrite <- Hf.
    + apply filtered_of_above. exact Hlow.
    + apply filtered_of_sorted.
Qed.

(** In exact arithmetic, on an engine built from a list of at least 3
    points, [graham_scan] returns a hull that has fewer than 3 vertices or
    in which every triple of consecutive vertices, the two triples that wrap
    around through the first vertex included, is a counter-clockwise turn
    according to [ccw] (so neither clockwise nor collinear).  On doubles
    this is lost: see [graham_scan_returns_other_turns] below. *)
Theorem graham_scan_convex (pts : list Point2D) (self : ConvexHull2D) :
  init pts = Return self ->
  exists h self',
    graham_scan self = Return (h, self') /\
    ((length h < 3)%nat \/
     forall i a b c,
       nth_error h i = Some a ->
       nth_error h ((i + 1) mod length h) = Some b ->
       nth_error h ((i + 2) mod length h) = Some c ->
       ccw a b c = true /\ orientation a b c = CounterClockwise).
Proof.
  intros H.
  destruct (graham_scan_structure pts self H)
    as [start [Hlow [[Hlen Hg] | [stack [Hinv Hg]]]]].
  - eexists _, _. split; [exact Hg |]. left. simpl. lia.
  - eexists _, _. split; [exact Hg |]. right.
    intros i a b c Ha Hb Hc.
    assert (Hccw : ccw a b c = true)
      by (exact (scan_inv_ccw_cycle start stack Hinv i a b c Ha Hb Hc)).
    split; [exact Hccw |].
    apply ccw_CounterClockwise. exact Hccw.
Qed.

Lemma pivot_once (s : Point2D) (l : list Point2D) :
  Forall (above s) l -> NoDup l ->
  NoDup (s :: l) /\
  length (filter (fun v => Point2D_eq v s) (s :: l)) = 1%nat.
Proof.
  intros Hab Hnd. rewrite Forall_forall in Hab. split.
  - constructor; [| exact Hnd].
    intros Hin. exact (above_neq s s (Hab s Hin) eq_refl).
  - simpl. replace (Point2D_eq s s) with true
      by (symmetry; apply Point2D_eq_true; reflexivity).
    simpl. f_equal.
    replace (filter (fun v => Point2D_eq v s) l) with (@nil Point2D);
      [reflexivity |].
    symmetry. induction l as [| a l IH]; [reflexivity |]. simpl.
    replace (Point2D_eq a s) with false.
    + apply IH. intros q Hq. apply Hab. right. exact Hq.
      inversion Hnd; assumption.
    + symmetry. apply Point2D_eq_false, above_neq, Hab. left. reflexivity.
Qed.

(** C10. On an engine built from a list of at least 3 points, duplicates
    allowed, [graham_scan] returns a hull without two equal vertices, and
    its first vertex, the pivot, is the only vertex with the pivot's
    coordinates. *)
Theorem graham_scan_no_duplicates (pts : list Point2D) (self : ConvexHull2D) :
  init pts = Return self ->
  exists h self' start,
    graham_scan self = Return (h, self') /\
    NoDup h /\
    nth_error h 0 = Some start /\
    length (filter (fun v => Point2D_eq v start) h) = 1%nat.
Proof.
  intros H.
  destruct (graham_scan_structure pts self H)
    as [start [Hlow [[Hlen Hg] | [stack [Hinv Hg]]]]].
  - destruct (pivot_once start (filtered_of start pts)) as [Hnd Hcount].
    + apply filtered_of_above. exact Hlow.
    + apply (StronglySorted_NoDup (angle_lt start)).
      * unfold angle_lt. intros a. lra.
      * apply filtered_of_sorted.
    + eexists _, _, start. split; [exact Hg |]. auto.
  - destruct Hinv as [body [-> [Hlen [Hab [Hs Hok]]]]].
    rewrite rev_app_distr in Hg. simpl in Hg.
    destruct (pivot_once start (rev body)) as [Hnd Hcount].
    + apply Forall_rev. exact Hab.
    + apply NoDup_rev. apply (StronglySorted_NoDup (angle_gt start)).
      * unfold angle_gt. intros a. lra.
      * exact Hs.
    + eexists _, _, start. split; [exact Hg |]. auto.
Qed.

(** ** Independence of the input order *)

Lemma filter_Permutation {A : Type} (f : A -> bool) (l l' : list A) :
  Permutation l l' -> Permutation (filter f l) (filter f l').
Proof.
  induction 1 as [| a l l' Hp IH | a b l | l l' l'' H1 IH1 H2 IH2]; simpl.
  - apply perm_nil.
  - destruct (f a); [apply perm_skip |]; exact IH.
  - destruct (f a), (f b); try apply Permutation_refl. apply perm_swap.
  - eapply perm_trans; eassumption.
Qed.

(** Two lists with the same elements, both in the order [le], are equal
    when [le] cannot hold both ways between different elements. *)
Lemma StronglySorted_unique {A : Type} (le : A -> A -> Prop) (l : list A) :
  forall l',
    (forall a b, In a l -> In b l -> le a b -> le b a -> a = b) ->
    StronglySorted le l -> StronglySorted le l' -> Permutation l l' ->
    l = l'.
Proof.
  induction l as [| a l IH]; intros l' Hanti Hs Hs' Hp.
  - apply Permutation_nil in Hp. congruence.
  - destruct l' as [| a' l'].
    + apply Permutation_sym, Permutation_nil in Hp. discriminate.
    + apply StronglySorted_inv in Hs. destruct Hs as [Hs Hf].
      apply StronglySorted_inv in Hs'. destruct Hs' as [Hs' Hf'].
      rewrite Forall_forall in Hf, Hf'.
      assert (Ha' : In a' (a :: l)).
      { eapply Permutation_in; [apply Permutation_sym; exact Hp |].
        left. reflexivity. }
      assert (Ha : In a (a' :: l')).
      { eapply Permutation_in; [exact Hp |]. left. reflexivity. }
      assert (E : a = a').
      { destruct Ha' as [E | Ha']; [exact E |].
        destruct Ha as [E | Ha]; [congruence |].
        apply Hanti; [left; reflexivity | right; exact Ha' | auto | auto]. }
      subst a'. f_equal. apply IH; try assumption.
      * intros b c Hb Hc. apply Hanti; right; assumption.
      * eapply Permutation_cons_inv. exact Hp.
Qed.

Lemma distance_to_sqr (s p : Point2D) :
  distance_to s p * distance_to s p =
  (x p - x s) * (x p - x s) + (y p - y s) * (y p - y s).
Proof.
  unfold distance_to. cbv zeta. rewrite sqrt_sqrt; [ring |].
  pose proof (Rle_0_sqr (x s - x p)) as Hx.
  pose proof (Rle_0_sqr (y s - y p)) as Hy.
  unfold Rsqr in Hx, Hy. lra.
Qed.

Lemma distance_to_nonneg (s p : Point2D) : 0 <= distance_to s p.
Proof. unfold distance_to. apply sqrt_pos. Qed.

Lemma polar_angle_eq_iff (s p q : Point2D) :
  above s p -> above s q ->
  (polar_angle s p = polar_angle s q <-> orientation_val s p q = 0).
Proof.
  intros Hp Hq.
  pose proof (polar_angle_lt_iff s p q Hp Hq) as H1.
  pose proof (polar_angle_lt_iff s q p Hq Hp) as H2.
  assert (E : orientation_val s q p = - orientation_val s p q)
    by (unfold orientation_val; ring).
  rewrite E in H2. split; intros H.
  - destruct (Rtotal_order (orientation_val s p q) 0) as [Hlt | [Heq | Hgt]].
    + apply H1 in Hlt. lra.
    + exact Heq.
    + assert (Hlt : - orientation_val s p q < 0) by lra.
      apply H2 in Hlt. lra.
  - destruct (Rtotal_order (polar_angle s p) (polar_angle s q))
      as [Hlt | [Heq | Hgt]].
    + apply H1 in Hlt. lra.
    + exact Heq.
    + apply H2 in Hgt. lra.
Qed.

(** Around the pivot a point is determined by its polar angle and its
    distance. *)
Lemma sort_key_inj (s p q : Point2D) :
  above s p -> above s q ->
  polar_angle s p = polar_angle s q ->
  distance_to s p = distance_to s q ->
  p = q.
Proof.
  intros Hp Hq Ha Hd.
  apply (polar_angle_eq_iff s p q Hp Hq) in Ha.
  assert (Hd2 : (x p - x s) * (x p - x s) + (y p - y s) * (y p - y s) =
                (x q - x s) * (x q - x s) + (y q - y s) * (y q - y s)).
  { rewrite <- !distance_to_sqr. rewrite Hd. reflexivity. }
  unfold orientation_val in Ha. unfold above in Hp, Hq.
  set (ux := x p - x s) in *. set (uy := y p - y s) in *.
  set (vx := x q - x s) in *. set (vy := y q - y s) in *.
  assert (Hc : ux * vy = uy * vx).
  { replace (x q - x p) with (vx - ux) in Ha by (unfold vx, ux; ring).
    replace (y q - y p) with (vy - uy) in Ha by (unfold vy, uy; ring).
    lra. }
  assert (Huy : 0 <= uy) by (unfold uy; lra).
  assert (Hvy : 0 <= vy) by (unfold vy; lra).
  assert (Hv : 0 < vx * vx + vy * vy).
  { destruct Hq as [Hq | [Hq1 Hq2]].
    - assert (0 < vy) by (unfold vy; lra). nra.
    - assert (0 < vx) by (unfold vx; lra). nra. }
  assert (Ey2 : (uy * uy - vy * vy) * (vx * vx + vy * vy) = 0).
  { replace ((uy * uy - vy * vy) * (vx * vx + vy * vy))
      with ((uy * vx) * (uy * vx) + uy * uy * (vy * vy)
            - vy * vy * (vx * vx + vy * vy)) by ring.
    rewrite <- Hc, <- Hd2. ring. }
  assert (Ey : uy = vy).
  { apply Rmult_integral in Ey2. destruct Ey2 as [E | E]; [| lra].
    assert (E' : (uy - vy) * (uy + vy) = 0) by lra.
    apply Rmult_integral in E'. destruct E' as [E' | E']; [lra |].
    assert (uy = 0) by lra. assert (vy = 0) by lra. lra. }
  assert (Ex : ux = vx).
  { rewrite Ey in Hc. destruct (Req_dec_T vy 0) as [Hz | Hnz].
    - assert (Hux : 0 < ux) by (unfold ux, uy in *; lra).
      assert (Hvx : 0 < vx) by (unfold vx, vy in *; lra).
      rewrite Ey in Hd2. assert (E' : (ux - vx) * (ux + vx) = 0) by lra.
      apply Rmult_integral in E'. destruct E' as [E' | E']; lra.
    - apply (Rmult_eq_reg_r vy); [lra | exact Hnz]. }
  destruct p as [xp yp], q as [xq yq]. simpl in *.
  unfold ux, vx in Ex. unfold uy, vy in Ey.
  f_equal; lra.
Qed.

Lemma sorted_Permutation_eq (s : Point2D) (l l' : list Point2D) :
  Forall (above s) l -> Permutation l l' ->
  sorted (sort_key s) l = sorted (sort_key s) l'.
Proof.
  intros Hab Hp.
  apply (StronglySorted_unique (key_le (sort_key s))).
  - intros a b Ha Hb Hab1 Hba.
    rewrite Forall_forall in Hab.
    assert (Ha' : above s a).
    { apply Hab. eapply Permutation_in;
        [apply Permutation_sym, sorted_perm | exact Ha]. }
    assert (Hb' : above s b).
    { apply Hab. eapply Permutation_in;
        [apply Permutation_sym, sorted_perm | exact Hb]. }
    unfold key_le in Hab1, Hba. apply tuple_lt_false in Hab1, Hba.
    unfold sort_key in Hab1, Hba. simpl in Hab1, Hba.
    apply (sort_key_inj s a b Ha' Hb'); lra.
  - apply sorted_sorted.
  - apply sorted_sorted.
  - eapply perm_trans; [apply Permutation_sym, sorted_perm |].
    eapply perm_trans; [exact Hp | apply sorted_perm].
Qed.

Lemma lowest_leftmost_unique (pts pts' : list Point2D) (s s' : Point2D) :
  Permutation pts pts' ->
  lowest_leftmost s pts -> lowest_leftmost s' pts' -> s = s'.
Proof.
  intros Hp [Hin Hmin] [Hin' Hmin'].
  assert (H1 : In s' pts)
    by (eapply Permutation_in; [apply Permutation_sym; exact Hp | exact Hin']).
  assert (H2 : In s pts') by (eapply Permutation_in; eassumption).
  specialize (Hmin s' H1). specialize (Hmin' s H2).
  destruct s as [xs ys], s' as [xs' ys']. simpl in *. f_equal; lra.
Qed.

Lemma filtered_of_Permutation (s : Point2D) (pts pts' : list Point2D) :
  lowest_leftmost s pts -> Permutation pts pts' ->
  filtered_of s pts = filtered_of s pts'.
Proof.
  intros Hlow Hp. unfold filtered_of. f_equal.
  apply sorted_Permutation_eq.
  - apply Forall_forall. intros p Hin.
    eapply other_points_above; eassumption.
  - apply filter_Permutation. exact Hp.
Qed.

(** In exact arithmetic, engines built from two lists that are
    permutations of each other return the same vertex sequence from
    [graham_scan]: same first vertex, same vertices, same order.  On doubles
    two different points can have equal keys: see
    [graham_scan_depends_on_input_order] below. *)
Theorem graham_scan_permutation_invariant
    (pts pts' : list Point2D) (self self' : ConvexHull2D) :
  Permutation pts pts' ->
  init pts = Return self -> init pts' = Return self' ->
  exists h after after',
    graham_scan self = Return (h, after) /\
    graham_scan self' = Return (h, after').
Proof.
  intros Hp H H'.
  apply init_inv in H. destruct H as [Hlen ->].
  apply init_inv in H'. destruct H' as [Hlen' ->].
  destruct (py_min_total pts) as [s Hmin].
  { destruct pts; simpl in Hlen; [lia | discriminate]. }
  destruct (py_min_total pts') as [s' Hmin'].
  { destruct pts'; simpl in Hlen'; [lia | discriminate]. }
  pose proof (py_min_lowest_leftmost _ _ Hmin) as Hlow.
  pose proof (py_min_lowest_leftmost _ _ Hmin') as Hlow'.
  assert (s = s') by (eapply lowest_leftmost_unique; eassumption).
  subst s'.
  pose proof (filtered_of_Permutation s pts pts' Hlow Hp) as Hf.
  destruct (graham_scan_cases {| points := pts; hull := [] |} s Hmin)
    as [[Hl Hg] | [f0 [f1 [rest [Hf0 Hg]]]]];
    destruct (graham_scan_cases {| points := pts'; hull := [] |} s Hmin')
      as [[Hl' Hg'] | [g0 [g1 [rest' [Hf0' Hg']]]]]; simpl in *.
  - rewrite <- Hf in Hg'. eauto.
  - rewrite Hf, Hf0' in Hl. simpl in Hl. lia.
  - rewrite <- Hf, Hf0 in Hl'. simpl in Hl'. lia.
  - rewrite <- Hf, Hf0 in Hf0'. injection Hf0' as <- <- <-. eauto.
Qed.

(** ** Collinear inputs *)

Lemma same_angle_eq (s a b : Point2D) :
  polar_angle s a = polar_angle s b -> same_angle s a b = true.
Proof.
  intros E. unfold same_angle. apply Rltb_true.
  rewrite E, Rminus_diag, Rabs_R0. apply angle_tolerance_pos.
Qed.

(** When all candidates share one polar angle the filter keeps a single
    one, at the largest distance from the pivot. *)
Lemma remove_same_angle_loop_one_angle (s : Point2D) (pts : list Point2D) :
  forall last,
    (forall p, In p pts -> polar_angle s p = polar_angle s last) ->
    exists far,
      remove_same_angle_loop s [last] pts = [far] /\
      In far (last :: pts) /\
      forall p, In p (last :: pts) -> distance_to s p <= distance_to s far.
Proof.
  induction pts as [| p rest IH]; intros last Hang; simpl.
  - exists last. split; [reflexivity |]. split; [left; reflexivity |].
    intros p [<- | []]. lra.
  - rewrite same_angle_eq by (symmetry; apply Hang; left; reflexivity).
    destruct (Rltb (distance_to s last) (distance_to s p)) eqn:E.
    + apply Rltb_true in E.
      destruct (IH p) as [far [H1 [H2 H3]]].
      { intros q Hq. rewrite (Hang q), (Hang p); simpl; auto. }
      exists far. split; [exact H1 |]. split; [right; exact H2 |].
      intros q [<- | Hq]; [| apply H3; exact Hq].
      specialize (H3 p (or_introl eq_refl)). lra.
    + apply Rltb_false in E.
      destruct (IH last) as [far [H1 [H2 H3]]].
      { intros q Hq. apply Hang. right. exact Hq. }
      exists far. split; [exact H1 |]. split.
      * destruct H2 as [H2 | H2]; [left | right; right]; assumption.
      * intros q [<- | [<- | Hq]].
        -- apply H3. left. reflexivity.
        -- specialize (H3 last (or_introl eq_refl)). lra.
        -- apply H3. right. exact Hq.
Qed.

Lemma collinear_between (s far p : Point2D) :
  above s far -> above s p ->
  orientation_val s p far = 0 ->
  distance_to s p <= distance_to s far ->
  between s far p.
Proof.
  intros Hfar Hp Ho Hd.
  assert (Hd2 : (x p - x s) * (x p - x s) + (y p - y s) * (y p - y s) <=
                (x far - x s) * (x far - x s) + (y far - y s) * (y far - y s)).
  { rewrite <- !distance_to_sqr.
    pose proof (distance_to_nonneg s p). pose proof (distance_to_nonneg s far).
    nra. }
  unfold orientation_val in Ho. unfold above in Hfar, Hp. unfold between.
  set (ux := x p - x s) in *. set (uy := y p - y s) in *.
  set (vx := x far - x s) in *. set (vy := y far - y s) in *.
  assert (Hc : ux * vy = uy * vx).
  { replace (x far - x p) with (vx - ux) in Ho by (unfold vx, ux; ring).
    replace (y far - y p) with (vy - uy) in Ho by (unfold vy, uy; ring).
    lra. }
  assert (Huy : 0 <= uy) by (unfold uy; lra).
  destruct (Rlt_dec 0 vy) as [Hvy | Hvy].
  - exists (uy / vy).
    assert (Ht : uy = uy / vy * vy) by (field; lra).
    assert (Hx : ux = uy / vy * vx).
    { apply (Rmult_eq_reg_r vy); [| lra]. rewrite Hc. field. lra. }
    assert (H0 : 0 <= uy / vy).
    { apply Rmult_le_pos; [exact Huy |]. apply Rlt_le, Rinv_0_lt_compat, Hvy. }
    split; [split; [exact H0 |] | split].
    + destruct (Rle_lt_dec (uy / vy) 1) as [Hle | Hgt]; [exact Hle |].
      exfalso. revert Ht Hx H0 Hgt. generalize (uy / vy). intros t Ht Hx H0 Hgt.
      assert (E : ux * ux + uy * uy = t * t * (vx * vx + vy * vy))
        by (rewrite Hx, Ht; ring).
      assert (Hsq : 0 < t * t - 1) by nra.
      assert (Hv : 0 < vx * vx + vy * vy) by nra.
      pose proof (Rmult_lt_0_compat _ _ Hsq Hv). lra.
    + rewrite <- Hx. unfold ux. ring.
    + rewrite <- Ht. unfold uy. ring.
  - assert (Ez : vy = 0) by (unfold vy in *; lra).
    assert (Hvx : 0 < vx) by (unfold vx, vy in *; lra).
    rewrite Ez in Hc. assert (Euy : uy = 0) by nra.
    assert (Hux : 0 < ux) by (unfold ux, uy in *; lra).
    exists (ux / vx).
    assert (Ht : ux = ux / vx * vx) by (field; lra).
    assert (H0 : 0 <= ux / vx).
    { apply Rmult_le_pos; [lra |]. apply Rlt_le, Rinv_0_lt_compat, Hvx. }
    split; [split; [exact H0 |] | split].
    + destruct (Rle_lt_dec (ux / vx) 1) as [Hle | Hgt]; [exact Hle |].
      exfalso. rewrite Euy, Ez in Hd2.
      revert Ht H0 Hgt. generalize (ux / vx). intros t Ht H0 Hgt.
      assert (E : ux * ux = t * t * (vx * vx)) by (rewrite Ht; ring).
      assert (Hsq : 0 < t * t - 1) by nra.
      assert (Hv : 0 < vx * vx) by nra.
      pose proof (Rmult_lt_0_compat _ _ Hsq Hv). lra.
    + rewrite <- Ht. unfold ux. ring.
    + rewrite Ez. unfold uy in Euy. lra.
Qed.

(** In exact arithmetic, on an engine built from at least 3 points that
    are all collinear, [graham_scan] returns, and its hull is either a single
    point, when all input points are that point, or two different input
    points with every input point on the segment between them.  On doubles
    the second point can be a nearer one: see
    [graham_scan_keeps_the_nearer_point] below. *)
Theorem graham_scan_collinear (pts : list Point2D) (self : ConvexHull2D) :
  init pts = Return self ->
  (forall p q r, In p pts -> In q pts -> In r pts ->
                 orientation p q r = Collinear) ->
  exists h self',
    graham_scan self = Return (h, self') /\
    ((exists a, h = [a] /\ forall p, In p pts -> p = a) \/
     (exists a b, h = [a; b] /\ a <> b /\ In a pts /\ In b pts /\
                  forall p, In p pts -> between a b p)).
Proof.
  intros H Hcol. apply init_inv in H. destruct H as [Hlen ->].
  destruct (py_min_total pts) as [s Hmin].
  { destruct pts; simpl in Hlen; [lia | discriminate]. }
  pose proof (py_min_lowest_leftmost _ _ Hmin) as Hlow.
  assert (Hgs : graham_scan {| points := pts; hull := [] |} =
                bind (Return s) (fun start =>
                  let f := filtered_of start pts in
                  if (length f <? 2)%nat
                  then Return (start :: f, {| points := pts; hull := [] |})
                  else Return (rev (fold_left scan_step (skipn 2 f)
                                      [nth 1 f start; nth 0 f start; start]),
                               {| points := pts;
                                  hull := rev (fold_left scan_step (skipn 2 f)
                                      [nth 1 f start; nth 0 f start; start])
                               |}))).
  { unfold graham_scan. simpl points. rewrite Hmin. reflexivity. }
  simpl in Hgs. rewrite Hgs. clear Hgs.
  set (others := filter (fun p => negb (Point2D_eq p s)) pts).
  assert (Hothers : forall p, In p others -> In p pts /\ above s p).
  { intros p Hp. split.
    - apply filter_In in Hp. tauto.
    - eapply other_points_above; eassumption. }
  assert (Hsorted : Permutation others (sorted (sort_key s) others))
    by apply sorted_perm.
  unfold filtered_of. fold others.
  destruct (sorted (sort_key s) others) as [| first rest] eqn:Es.
  - (* no point differs from the pivot *)
    apply Permutation_sym, Permutation_nil in Hsorted.
    simpl. eexists _, _. split; [reflexivity |]. left.
    exists s. split; [reflexivity |].
    intros p Hp. destruct (Point2D_eq p s) eqn:E.
    + apply Point2D_eq_true. exact E.
    + exfalso. assert (Hin : In p others).
      { apply filter_In. split; [exact Hp |]. rewrite E. reflexivity. }
      rewrite Hsorted in Hin. exact Hin.
  - assert (Hin : forall p, In p (first :: rest) -> In p pts /\ above s p).
    { intros p Hp. apply Hothers.
      eapply Permutation_in; [apply Permutation_sym; exact Hsorted | exact Hp]. }
    assert (Hval : forall p q, In p pts -> In q pts ->
                               orientation_val s p q = 0).
    { intros p q Hp Hq. apply orientation_Collinear.
      apply Hcol; [apply Hlow | exact Hp | exact Hq]. }
    destruct (remove_same_angle_loop_one_angle s rest first)
      as [far [Hloop [Hfar Hmax]]].
    { intros p Hp.
      destruct (Hin p (or_intror Hp)) as [Hp1 Hp2].
      destruct (Hin first (or_introl eq_refl)) as [Hf1 Hf2].
      apply polar_angle_eq_iff; auto. }
    simpl remove_same_angle_points. rewrite Hloop. simpl.
    destruct (Hin far Hfar) as [Hfar1 Hfar2].
    eexists _, _. split; [reflexivity |]. right.
    exists s, far. split; [reflexivity |].
    split; [intros E; exact (above_neq s far Hfar2 (eq_sym E)) |].
    split; [apply Hlow |]. split; [exact Hfar1 |].
    intros p Hp. destruct (Point2D_eq p s) eqn:E.
    + apply Point2D_eq_true in E. subst p. exists 0. lra.
    + assert (Hpo : In p others).
      { apply filter_In. split; [exact Hp |]. rewrite E. reflexivity. }
      destruct (Hothers p Hpo) as [_ Hab].
      apply collinear_between; auto. apply Hmax.
      eapply Permutation_in; [exact Hsorted | exact Hpo].
Qed.

(** ** The metrics and the stored hull *)

(** C2 (amended). On an engine that the constructor has just returned, on
    which no hull has been computed, [get_hull_area] and
    [get_hull_perimeter] read the stored hull, which is empty, and return
    0 whatever the input points are; they do not compute a hull. *)
Theorem metrics_before_scan_are_zero (pts : list Point2D) (self : ConvexHull2D) :
  init pts = Return self ->
  get_hull_vertices self = [] /\
  get_hull_area self = 0 /\ get_hull_perimeter self = 0.
Proof.
  intros H. apply init_inv in H. destruct H as [_ ->].
  repeat split; reflexivity.
Qed.

(** ** The scenarios of the specification, evaluated *)

Lemma Point2D_eq_refl (p : Point2D) : Point2D_eq p p = true.
Proof. apply Point2D_eq_true. reflexivity. Qed.

Lemma polar_angle_level (s p : Point2D) :
  y p = y s -> x s < x p -> polar_angle s p = 0.
Proof.
  intros Hy Hx. unfold polar_angle. cbv zeta.
  replace (y p - y s) with 0 by lra. apply atan2_axis. lra.
Qed.

Lemma polar_angle_upright (s p : Point2D) :
  x p = x s -> y s < y p -> polar_angle s p = PI / 2.
Proof.
  intros Hx Hy. unfold polar_angle. cbv zeta.
  rewrite atan2_upper by lra.
  replace (x p - x s) with 0 by lra.
  unfold Rdiv at 2. rewrite Rmult_0_l, atan_0. lra.
Qed.

Lemma polar_angle_diagonal (s p : Point2D) :
  0 < x p - x s -> y p - y s = x p - x s -> polar_angle s p = PI / 4.
Proof.
  intros Hx Hy. unfold polar_angle, atan2. cbv zeta.
  destruct (Rlt_dec 0 (x p - x s)); [| lra].
  rewrite Hy. replace ((x p - x s) / (x p - x s)) with 1 by (field; lra).
  apply atan_1.
Qed.

Lemma distance_to_level (a b : Point2D) :
  y a = y b -> distance_to a b = Rabs (x a - x b).
Proof.
  intros Hy. unfold distance_to. cbv zeta.
  replace (y a - y b) with 0 by lra.
  rewrite Rmult_0_l, Rplus_0_r. apply sqrt_Rsqr_abs.
Qed.

Lemma distance_to_upright (a b : Point2D) :
  x a = x b -> distance_to a b = Rabs (y a - y b).
Proof.
  intros Hx. unfold distance_to. cbv zeta.
  replace (x a - x b) with 0 by lra.
  rewrite Rmult_0_l, Rplus_0_l. apply sqrt_Rsqr_abs.
Qed.

Lemma polar_sq1 : polar_angle sq0 sq1 = 0.
Proof. apply polar_angle_level; simpl; lra. Qed.

Lemma polar_sq2 : polar_angle sq0 sq2 = PI / 4.
Proof. apply polar_angle_diagonal; simpl; lra. Qed.

Lemma polar_sq3 : polar_angle sq0 sq3 = PI / 2.
Proof. apply polar_angle_upright; simpl; lra. Qed.

Lemma polar_sq4 : polar_angle sq0 sq4 = PI / 4.
Proof. apply polar_angle_diagonal; simpl; lra. Qed.

Lemma polar_midpoint : polar_angle sq0 midpoint = 0.
Proof. apply polar_angle_level; simpl; lra. Qed.

Lemma polar_apex : polar_angle sq0 apex = atan 2.
Proof.
  unfold polar_angle, atan2. simpl.
  destruct (Rlt_dec 0 (5 - 0)); [| lra].
  f_equal. lra.
Qed.

Lemma atan_2_bounds : PI / 4 < atan 2 < PI / 2.
Proof.
  split.
  - rewrite <- atan_1. apply atan_increasing. lra.
  - apply atan_bound.
Qed.

Lemma distance_sq4_sq2 : distance_to sq0 sq4 < distance_to sq0 sq2.
Proof. unfold distance_to. simpl. apply sqrt_lt_1_alt. lra. Qed.

Lemma distance_midpoint_sq1 : distance_to sq0 midpoint < distance_to sq0 sq1.
Proof. unfold distance_to. simpl. apply sqrt_lt_1_alt. lra. Qed.

Create Rewrite HintDb polar.
#[local] Hint Rewrite
  polar_sq1 polar_sq2 polar_sq3 polar_sq4 polar_midpoint polar_apex : polar.

(** The numeric facts the comparisons below rest on. *)
Ltac real_facts :=
  pose proof PI_RGT_0; pose proof PI2_3_2; pose proof atan_2_bounds;
  pose proof distance_sq4_sq2; pose proof distance_midpoint_sq1.

Ltac key_side :=
  unfold sort_key, min_key; cbn [fst snd];
  autorewrite with polar; cbn [x y sq0 sq1 sq2 sq3 sq4 apex midpoint];
  real_facts; lra.

(** Decide the next key comparison of [min] or [sorted] in the goal. *)
Ltac eval_tuple_lt :=
  match goal with
  | |- context [tuple_lt ?a ?b] =>
      first [ replace (tuple_lt a b) with true
                by (symmetry; apply tuple_lt_true; key_side)
            | replace (tuple_lt a b) with false
                by (symmetry; apply tuple_lt_false; key_side) ]
  end.

(** Decide the next [==] on points in the goal. *)
Ltac eval_eq :=
  match goal with
  | |- context [Point2D_eq ?a ?a] => rewrite (Point2D_eq_refl a)
  | |- context [Point2D_eq ?a ?b] =>
      replace (Point2D_eq a b) with false
        by (symmetry; apply Point2D_eq_false; intros E; injection E; lra)
  end.

(** Decide the next test of the same-angle filter in the goal. *)
Ltac eval_same_angle :=
  match goal with
  | |- context [same_angle ?s ?a ?b] =>
      first [ replace (same_angle s a b) with true
                by (symmetry; apply same_angle_eq; autorewrite with polar;
                    reflexivity)
            | replace (same_angle s a b) with false
                by (symmetry; unfold same_angle; apply Rltb_false;
                    autorewrite with polar; real_facts;
                    unfold angle_tolerance; rewrite Rabs_left by lra; lra) ]
  | |- context [Rltb (distance_to ?s ?a) (distance_to ?s ?b)] =>
      first [ replace (Rltb (distance_to s a) (distance_to s b)) with true
                by (symmetry; apply Rltb_true; real_facts; lra)
            | replace (Rltb (distance_to s a) (distance_to s b)) with false
                by (symmetry; apply Rltb_false; real_facts; lra) ]
  end.

(** Decide the next turn test of the scan in the goal. *)
Ltac eval_ccw :=
  match goal with
  | |- context [ccw ?a ?b ?c] =>
      first [ replace (ccw a b c) with true
                by (symmetry; apply ccw_true; unfold orientation_val;
                    simpl; lra)
            | replace (ccw a b c) with false
                by (symmetry; apply ccw_false; unfold orientation_val;
                    simpl; lra) ]
  end.

Ltac eval_py_min :=
  unfold py_min, min_loop; repeat eval_tuple_lt; reflexivity.

Ltac eval_filtered_of :=
  unfold filtered_of; cbn [filter];
  repeat eval_eq; cbn [negb sorted fold_right insert_sorted];
  repeat (eval_tuple_lt; cbn [insert_sorted]);
  cbn [remove_same_angle_points remove_same_angle_loop];
  repeat (eval_same_angle; cbn [remove_same_angle_loop]);
  reflexivity.

Ltac eval_scan :=
  cbn [fold_left]; unfold scan_step; cbn [pop_while];
  repeat (eval_ccw; cbn [negb pop_while]);
  reflexivity.

Lemma py_min_square : py_min min_key square = Return sq0.
Proof. unfold square. eval_py_min. Qed.

Lemma filtered_of_square : filtered_of sq0 square = [sq1; sq2; sq3].
Proof. unfold square. eval_filtered_of. Qed.

(** Scenario 1: the hull of the square with an interior point is the four
    corners, counter-clockwise from (0,0). *)
Lemma graham_scan_square :
  graham_scan {| points := square; hull := [] |} =
  Return ([sq0; sq1; sq2; sq3],
          {| points := square; hull := [sq0; sq1; sq2; sq3] |}).
Proof.
  destruct (graham_scan_cases {| points := square; hull := [] |} sq0
              py_min_square) as [[Hlen _] | [f0 [f1 [rest [Hf Hg]]]]];
    cbn [points] in *.
  - rewrite filtered_of_square in Hlen. simpl in Hlen. lia.
  - rewrite filtered_of_square in Hf. injection Hf as <- <- <-.
    rewrite Hg. eval_scan.
Qed.

Lemma get_hull_area_square :
  get_hull_area {| points := square; hull := [sq0; sq1; sq2; sq3] |} = 100.
Proof.
  unfold get_hull_area, hull_at. simpl.
  match goal with |- Rabs ?e / 2 = _ => replace e with 200 by ring end.
  rewrite Rabs_right by lra. lra.
Qed.

Lemma get_hull_perimeter_square :
  get_hull_perimeter {| points := square; hull := [sq0; sq1; sq2; sq3] |} = 40.
Proof.
  unfold get_hull_perimeter, hull_at. simpl.
  rewrite (distance_to_level sq0 sq1), (distance_to_upright sq1 sq2),
    (distance_to_level sq2 sq3), (distance_to_upright sq3 sq0)
    by reflexivity.
  simpl. rewrite !Rabs_left, !Rabs_right by lra. lra.
Qed.

Lemma py_min_triangle_with_midpoint :
  py_min min_key triangle_with_midpoint = Return sq0.
Proof. unfold triangle_with_midpoint. eval_py_min. Qed.

Lemma filtered_of_triangle_with_midpoint :
  filtered_of sq0 triangle_with_midpoint = [sq1; apex].
Proof. unfold triangle_with_midpoint. eval_filtered_of. Qed.

(** Scenario 2: the midpoint of the base is not a vertex of the hull. *)
Lemma graham_scan_triangle_with_midpoint :
  graham_scan {| points := triangle_with_midpoint; hull := [] |} =
  Return ([sq0; sq1; apex],
          {| points := triangle_with_midpoint; hull := [sq0; sq1; apex] |}).
Proof.
  destruct (graham_scan_cases
              {| points := triangle_with_midpoint; hull := [] |} sq0
              py_min_triangle_with_midpoint)
    as [[Hlen _] | [f0 [f1 [rest [Hf Hg]]]]]; cbn [points] in *.
  - rewrite filtered_of_triangle_with_midpoint in Hlen. simpl in Hlen. lia.
  - rewrite filtered_of_triangle_with_midpoint in Hf.
    injection Hf as <- <- <-. rewrite Hg. eval_scan.
Qed.

Lemma py_min_with_duplicates : py_min min_key with_duplicates = Return sq0.
Proof. unfold with_duplicates. eval_py_min. Qed.

Lemma filtered_of_with_duplicates :
  filtered_of sq0 with_duplicates = [sq1; sq4].
Proof. unfold with_duplicates. eval_filtered_of. Qed.

(** Scenario 3: the repeated point appears once in the hull. *)
Lemma graham_scan_with_duplicates :
  graham_scan {| points := with_duplicates; hull := [] |} =
  Return ([sq0; sq1; sq4],
          {| points := with_duplicates; hull := [sq0; sq1; sq4] |}).
Proof.
  destruct (graham_scan_cases {| points := with_duplicates; hull := [] |} sq0
              py_min_with_duplicates)
    as [[Hlen _] | [f0 [f1 [rest [Hf Hg]]]]]; cbn [points] in *.
  - rewrite filtered_of_with_duplicates in Hlen. simpl in Hlen. lia.
  - rewrite filtered_of_with_duplicates in Hf.
    injection Hf as <- <- <-. rewrite Hg. eval_scan.
Qed.

Lemma py_min_diagonal : py_min min_key diagonal = Return sq0.
Proof. unfold diagonal. eval_py_min. Qed.

Lemma filtered_of_diagonal : filtered_of sq0 diagonal = [sq2].
Proof. unfold diagonal. eval_filtered_of. Qed.

(** Three points of a line: the hull is the two end points; this path
    returns before [self.hull] is assigned, so the engine is unchanged. *)
Lemma graham_scan_diagonal :
  graham_scan {| points := diagonal; hull := [] |} =
  Return ([sq0; sq2], {| points := diagonal; hull := [] |}).
Proof.
  destruct (graham_scan_cases {| points := diagonal; hull := [] |} sq0
              py_min_diagonal)
    as [[_ Hg] | [f0 [f1 [rest [Hf _]]]]]; cbn [points] in *.
  - rewrite filtered_of_diagonal in Hg. exact Hg.
  - rewrite filtered_of_diagonal in Hf. discriminate.
Qed.

(** Scenario 4: two points are refused by the constructor. *)
Lemma init_two_points :
  init [sq0; sq4] = Raise (ValueError too_few_points_msg).
Proof. reflexivity. Qed.

(** C2, as stated, fails on the square of scenario 1: the fresh engine
    reports area 0 and perimeter 0, while after the hull has been computed
    the area is 100 and the perimeter 40. *)
Lemma metrics_do_not_trigger_scan :
  let self := {| points := square; hull := [] |} in
  init square = Return self /\
  exists h after,
    compute_hull self = Return (h, after) /\
    get_hull_area after = 100 /\ get_hull_perimeter after = 40 /\
    get_hull_area self <> get_hull_area after /\
    get_hull_perimeter self <> get_hull_perimeter after.
Proof.
  split; [reflexivity |].
  exists [sq0; sq1; sq2; sq3],
    {| points := square; hull := [sq0; sq1; sq2; sq3] |}.
  split; [exact graham_scan_square |].
  rewrite get_hull_area_square, get_hull_perimeter_square.
  split; [reflexivity |]. split; [reflexivity |]. split.
  - change (get_hull_area {| points := square; hull := [] |}) with 0. lra.
  - change (get_hull_perimeter {| points := square; hull := [] |}) with 0.
    lra.
Qed.

(** ** The theorems at concrete inputs *)

Lemma metrics_before_scan_are_zero_witness :
  init square = Return {| points := square; hull := [] |} /\
  (get_hull_vertices {| points := square; hull := [] |} = [] /\
   get_hull_area {| points := square; hull := [] |} = 0 /\
   get_hull_perimeter {| points := square; hull := [] |} = 0).
Proof.
  split; [reflexivity |].
  apply (metrics_before_scan_are_zero square). reflexivity.
Defined.

Lemma graham_scan_starts_at_pivot_witness :
  init square = Return {| points := square; hull := [] |} /\
  exists h self' start,
    graham_scan {| points := square; hull := [] |} = Return (h, self') /\
    nth_error h 0 = Some start /\ In start h /\ In start square /\
    forall p, In p square ->
              y start < y p \/ (y start = y p /\ x start <= x p).
Proof.
  split; [reflexivity |].
  apply (graham_scan_starts_at_pivot square). reflexivity.
Defined.

Lemma graham_scan_vertices_from_input_witness :
  init square = Return {| points := square; hull := [] |} /\
  exists h self',
    graham_scan {| points := square; hull := [] |} = Return (h, self') /\
    forall v, In v h -> exists p, In p square /\ x v = x p /\ y v = y p.
Proof.
  split; [reflexivity |].
  apply (graham_scan_vertices_from_input square). reflexivity.
Defined.

Lemma graham_scan_no_duplicates_witness :
  init with_duplicates =
    Return {| points := with_duplicates; hull := [] |} /\
  exists h self' start,
    graham_scan {| points := with_duplicates; hull := [] |} =
      Return (h, self') /\
    NoDup h /\
    nth_error h 0 = Some start /\
    length (filter (fun v => Point2D_eq v start) h) = 1%nat.
Proof.
  split; [reflexivity |].
  apply (graham_scan_no_duplicates with_duplicates).
  reflexivity.
Defined.

(** * The code on doubles *)

(** What follows is about the module [Machine]: the code as it runs, on
    binary64 numbers, with the platform's arc tangent left open. *)

(** ** Comparisons of doubles *)

Lemma SFcompare_swap (a b : SpecFloat.spec_float) :
  SpecFloat.SFcompare b a = option_map CompOpp (SpecFloat.SFcompare a b).
Proof.
  destruct a as [sa | sa | | sa ma ea], b as [sb | sb | | sb mb eb];
    try destruct sa; try destruct sb; try reflexivity; cbn;
    change (Pos.compare_cont Eq) with Pos.compare;
    rewrite (Z.compare_antisym ea eb), (Pos.compare_antisym ma mb);
    destruct (ea ?= eb)%Z, (ma ?= mb)%positive; reflexivity.
Qed.

Lemma SFcompare_Lt_trans (a b c : SpecFloat.spec_float) :
  SpecFloat.SFcompare a b = Some Lt -> SpecFloat.SFcompare b c = Some Lt ->
  SpecFloat.SFcompare a c = Some Lt.
Proof.
  destruct a as [sa | sa | | sa ma ea], b as [sb | sb | | sb mb eb],
    c as [sc | sc | | sc mc ec];
    try destruct sa; try destruct sb; try destruct sc; cbn;
    try congruence; try reflexivity;
    change (Pos.compare_cont Eq) with Pos.compare;
    destruct (Z.compare_spec ea eb), (Z.compare_spec eb ec),
      (Z.compare_spec ea ec);
    try congruence; try lia; subst;
    destruct (Pos.compare_spec ma mb), (Pos.compare_spec mb mc),
      (Pos.compare_spec ma mc);
    cbn; try congruence; try lia.
Qed.

Lemma SFcompare_Eq_Lt (a b c : SpecFloat.spec_float) :
  SpecFloat.SFcompare a b = Some Eq -> SpecFloat.SFcompare b c = Some Lt ->
  SpecFloat.SFcompare a c = Some Lt.
Proof.
  destruct a as [sa | sa | | sa ma ea], b as [sb | sb | | sb mb eb],
    c as [sc | sc | | sc mc ec];
    try destruct sa; try destruct sb; try destruct sc; cbn;
    try congruence; try reflexivity;
    change (Pos.compare_cont Eq) with Pos.compare;
    destruct (Z.compare_spec ea eb), (Z.compare_spec eb ec),
      (Z.compare_spec ea ec);
    try congruence; try lia; subst;
    destruct (Pos.compare_spec ma mb), (Pos.compare_spec mb mc),
      (Pos.compare_spec ma mc);
    cbn; try congruence; try lia.
Qed.

Lemma SFcompare_refl (a : SpecFloat.spec_float) :
  SpecFloat.SFcompare a a = None \/ SpecFloat.SFcompare a a = Some Eq.
Proof.
  destruct a as [sa | sa | | sa ma ea]; try destruct sa; cbn; auto;
    rewrite Z.compare_refl; change (Pos.compare_cont Eq) with Pos.compare;
    rewrite Pos.compare_refl; auto.
Qed.

Lemma SFcompare_Lt_Eq (a b c : SpecFloat.spec_float) :
  SpecFloat.SFcompare a b = Some Lt -> SpecFloat.SFcompare b c = Some Eq ->
  SpecFloat.SFcompare a c = Some Lt.
Proof.
  destruct a as [sa | sa | | sa ma ea], b as [sb | sb | | sb mb eb],
    c as [sc | sc | | sc mc ec];
    try destruct sa; try destruct sb; try destruct sc; cbn;
    try congruence; try reflexivity;
    change (Pos.compare_cont Eq) with Pos.compare;
    destruct (Z.compare_spec ea eb), (Z.compare_spec eb ec),
      (Z.compare_spec ea ec);
    try congruence; try lia; subst;
    destruct (Pos.compare_spec ma mb), (Pos.compare_spec mb mc),
      (Pos.compare_spec ma mc);
    cbn; try congruence; try lia.
Qed.

Lemma SFcompare_Eq_Eq (a b c : SpecFloat.spec_float) :
  SpecFloat.SFcompare a b = Some Eq -> SpecFloat.SFcompare b c = Some Eq ->
  SpecFloat.SFcompare a c = Some Eq.
Proof.
  destruct a as [sa | sa | | sa ma ea], b as [sb | sb | | sb mb eb],
    c as [sc | sc | | sc mc ec];
    try destruct sa; try destruct sb; try destruct sc; cbn;
    try congruence; try reflexivity;
    change (Pos.compare_cont Eq) with Pos.compare;
    destruct (Z.compare_spec ea eb), (Z.compare_spec eb ec),
      (Z.compare_spec ea ec);
    try congruence; try lia; subst;
    destruct (Pos.compare_spec ma mb), (Pos.compare_spec mb mc),
      (Pos.compare_spec ma mc);
    cbn; try congruence; try lia.
Qed.

Lemma SFcompare_None (a b : SpecFloat.spec_float) :
  SpecFloat.SFcompare a b = None ->
  SpecFloat.SFcompare a a = None \/ SpecFloat.SFcompare b b = None.
Proof.
  destruct a as [sa | sa | | sa ma ea], b as [sb | sb | | sb mb eb];
    try destruct sa; try destruct sb; cbn; auto; discriminate.
Qed.

(** The comparison of two doubles: [None] when one of them is not a
    number. *)
Lemma float_ltb_compare (a b : PrimFloat.float) :
  PrimFloat.ltb a b = true <-> Machine.compare a b = Some Lt.
Proof.
  unfold Machine.compare. rewrite FloatAxioms.ltb_spec. unfold SpecFloat.SFltb.
  destruct (SpecFloat.SFcompare _ _) as [[ | | ] | ]; split; congruence.
Qed.

Lemma float_eqb_compare (a b : PrimFloat.float) :
  PrimFloat.eqb a b = true <-> Machine.compare a b = Some Eq.
Proof.
  unfold Machine.compare. rewrite FloatAxioms.eqb_spec. unfold SpecFloat.SFeqb.
  destruct (SpecFloat.SFcompare _ _) as [[ | | ] | ]; split; congruence.
Qed.

Lemma float_ltb_trans (a b c : PrimFloat.float) :
  PrimFloat.ltb a b = true -> PrimFloat.ltb b c = true ->
  PrimFloat.ltb a c = true.
Proof. rewrite !float_ltb_compare. apply SFcompare_Lt_trans. Qed.

Lemma float_ltb_irrefl (a : PrimFloat.float) : PrimFloat.ltb a a = false.
Proof.
  destruct (PrimFloat.ltb a a) eqn:E; [| reflexivity].
  apply float_ltb_compare in E. unfold Machine.compare in E.
  destruct (SFcompare_refl (FloatOps.Prim2SF a)); congruence.
Qed.

Lemma float_ltb_asym (a b : PrimFloat.float) :
  PrimFloat.ltb a b = true -> PrimFloat.ltb b a = false.
Proof.
  intros H. destruct (PrimFloat.ltb b a) eqn:E; [| reflexivity].
  rewrite <- (float_ltb_irrefl a). symmetry. exact (float_ltb_trans _ _ _ H E).
Qed.

Lemma float_eqb_sym (a b : PrimFloat.float) :
  PrimFloat.eqb a b = PrimFloat.eqb b a.
Proof.
  rewrite !FloatAxioms.eqb_spec. unfold SpecFloat.SFeqb.
  rewrite (SFcompare_swap (FloatOps.Prim2SF a) (FloatOps.Prim2SF b)).
  destruct (SpecFloat.SFcompare _ _) as [[ | | ] | ]; reflexivity.
Qed.

Lemma float_eqb_trans (a b c : PrimFloat.float) :
  PrimFloat.eqb a b = true -> PrimFloat.eqb b c = true ->
  PrimFloat.eqb a c = true.
Proof. rewrite !float_eqb_compare. apply SFcompare_Eq_Eq. Qed.

Lemma float_eqb_ltb (a b c : PrimFloat.float) :
  PrimFloat.eqb a b = true -> PrimFloat.ltb b c = true ->
  PrimFloat.ltb a c = true.
Proof.
  rewrite float_eqb_compare, !float_ltb_compare. apply SFcompare_Eq_Lt.
Qed.

Lemma float_ltb_eqb (a b c : PrimFloat.float) :
  PrimFloat.ltb a b = true -> PrimFloat.eqb b c = true ->
  PrimFloat.ltb a c = true.
Proof.
  rewrite float_eqb_compare, !float_ltb_compare. apply SFcompare_Lt_Eq.
Qed.

Lemma float_eqb_not_ltb (a b : PrimFloat.float) :
  PrimFloat.eqb a b = true -> PrimFloat.ltb a b = false.
Proof.
  intros H. destruct (PrimFloat.ltb a b) eqn:E; [| reflexivity].
  apply float_eqb_compare in H. apply float_ltb_compare in E. congruence.
Qed.

Lemma float_ltb_not_eqb (a b : PrimFloat.float) :
  PrimFloat.ltb a b = true -> PrimFloat.eqb a b = false.
Proof.
  intros H. destruct (PrimFloat.eqb a b) eqn:E; [| reflexivity].
  apply float_eqb_not_ltb in E. congruence.
Qed.

(** Two doubles that are numbers are equal or one is below the other. *)
Lemma float_ltb_total (a b : PrimFloat.float) :
  PrimFloat.is_nan a = false -> PrimFloat.is_nan b = false ->
  PrimFloat.ltb a b = false -> PrimFloat.ltb b a = false ->
  PrimFloat.eqb a b = true.
Proof.
  unfold PrimFloat.is_nan. intros Ha Hb Hab Hba.
  apply negb_false_iff in Ha, Hb. apply float_eqb_compare in Ha, Hb.
  apply float_eqb_compare.
  destruct (PrimFloat.ltb a b) eqn:E1; [discriminate |].
  destruct (PrimFloat.ltb b a) eqn:E2; [discriminate |].
  pose proof (proj2 (float_ltb_compare a b)) as L1.
  pose proof (proj2 (float_ltb_compare b a)) as L2.
  unfold Machine.compare in *.
  rewrite (SFcompare_swap (FloatOps.Prim2SF a) (FloatOps.Prim2SF b)) in L2.
  destruct (SpecFloat.SFcompare (FloatOps.Prim2SF a) (FloatOps.Prim2SF b))
    as [[ | | ] | ] eqn:C; cbn in L2.
  - reflexivity.
  - rewrite L1 in E1 by reflexivity. discriminate.
  - rewrite L2 in E2 by reflexivity. discriminate.
  - destruct (SFcompare_None _ _ C); congruence.
Qed.

Lemma float_ltb_not_nan (a b : PrimFloat.float) :
  PrimFloat.ltb a b = true ->
  PrimFloat.is_nan a = false /\ PrimFloat.is_nan b = false.
Proof.
  intros H. apply float_ltb_compare in H. unfold Machine.compare in H.
  unfold PrimFloat.is_nan. rewrite !negb_false_iff, !float_eqb_compare.
  unfold Machine.compare.
  destruct (SFcompare_refl (FloatOps.Prim2SF a)) as [Na | Na],
    (SFcompare_refl (FloatOps.Prim2SF b)) as [Nb | Nb]; auto;
    exfalso;
    destruct (FloatOps.Prim2SF a) as [sa | sa | | sa ma ea],
      (FloatOps.Prim2SF b) as [sb | sb | | sb mb eb];
    try destruct sa; try destruct sb; cbn in *; congruence.
Qed.

(** ** [orientation] on doubles *)

Lemma float_eqb_not_nan (a b : PrimFloat.float) :
  PrimFloat.eqb a b = true ->
  PrimFloat.is_nan a = false /\ PrimFloat.is_nan b = false.
Proof.
  intros H. unfold PrimFloat.is_nan. rewrite !negb_false_iff. split.
  - apply (float_eqb_trans a b a); [exact H | rewrite float_eqb_sym; exact H].
  - apply (float_eqb_trans b a b); [rewrite float_eqb_sym; exact H | exact H].
Qed.

Lemma float_zero_is_number : PrimFloat.is_nan PrimFloat.zero = false.
Proof. reflexivity. Qed.

Lemma machine_orientation_Collinear (p q r : Machine.Point2D) :
  Machine.orientation p q r = Collinear <->
  PrimFloat.eqb (Machine.orientation_val p q r) PrimFloat.zero = true.
Proof.
  unfold Machine.orientation, Collinear. cbv zeta.
  fold PrimFloat.zero.
  destruct (PrimFloat.eqb _ _); [tauto |].
  destruct (PrimFloat.ltb _ _); split; discriminate.
Qed.

Lemma machine_orientation_Clockwise (p q r : Machine.Point2D) :
  Machine.orientation p q r = Clockwise <->
  PrimFloat.ltb PrimFloat.zero (Machine.orientation_val p q r) = true.
Proof.
  unfold Machine.orientation, Clockwise. cbv zeta.
  fold PrimFloat.zero.
  destruct (PrimFloat.eqb _ _) eqn:E.
  - rewrite float_eqb_sym in E. apply float_eqb_not_ltb in E. rewrite E.
    split; discriminate.
  - destruct (PrimFloat.ltb _ _); split; congruence.
Qed.

Lemma machine_orientation_CounterClockwise (p q r : Machine.Point2D) :
  Machine.orientation p q r = CounterClockwise <->
  PrimFloat.ltb (Machine.orientation_val p q r) PrimFloat.zero = true \/
  PrimFloat.is_nan (Machine.orientation_val p q r) = true.
Proof.
  unfold Machine.orientation, CounterClockwise. cbv zeta.
  fold PrimFloat.zero.
  set (val := Machine.orientation_val p q r).
  destruct (PrimFloat.eqb val PrimFloat.zero) eqn:E.
  - split; [discriminate |]. intros [H | H]; exfalso.
    + apply float_ltb_not_eqb in H. congruence.
    + apply float_eqb_not_nan in E. destruct E. congruence.
  - destruct (PrimFloat.ltb PrimFloat.zero val) eqn:L.
    + split; [discriminate |]. intros [H | H]; exfalso.
      * apply float_ltb_asym in H. congruence.
      * apply float_ltb_not_nan in L. destruct L. congruence.
    + split; [intros _ | reflexivity].
      destruct (PrimFloat.is_nan val) eqn:N; [right; reflexivity | left].
      destruct (PrimFloat.ltb val PrimFloat.zero) eqn:L'; [reflexivity |].
      rewrite (float_ltb_total val PrimFloat.zero N float_zero_is_number L' L)
        in E.
      discriminate.
Qed.

Lemma machine_ccw_CounterClockwise (p q r : Machine.Point2D) :
  Machine.ccw p q r = true <-> Machine.orientation p q r = CounterClockwise.
Proof. unfold Machine.ccw, CounterClockwise. apply Z.eqb_eq. Qed.

(** C7 (as amended).  [orientation] evaluates the cross product
    (q.y - p.y) * (r.x - q.x) - (q.x - p.x) * (r.y - q.y) in double
    precision and classifies the rounded result: it returns Collinear
    exactly when that double equals zero, Clockwise exactly when it is
    positive, and CounterClockwise in every other case, that is when it is
    negative or not a number; [ccw] is true exactly when [orientation]
    returns CounterClockwise. *)
Theorem orientation_classifies_computed_value (p q r : Machine.Point2D) :
  let val := Machine.orientation_val p q r in
  (Machine.orientation p q r = Collinear <->
   PrimFloat.eqb val PrimFloat.zero = true) /\
  (Machine.orientation p q r = Clockwise <->
   PrimFloat.ltb PrimFloat.zero val = true) /\
  (Machine.orientation p q r = CounterClockwise <->
   PrimFloat.ltb val PrimFloat.zero = true \/ PrimFloat.is_nan val = true) /\
  (Machine.ccw p q r = true <->
   Machine.orientation p q r = CounterClockwise).
Proof.
  cbv zeta. split; [apply machine_orientation_Collinear |].
  split; [apply machine_orientation_Clockwise |].
  split; [apply machine_orientation_CounterClockwise |].
  apply machine_ccw_CounterClockwise.
Qed.

(** The sign of the cross product itself is not what [orientation]
    reports.  On (0, 0), (1, 1), (-1e-17, 1e-17) the cross product is
    negative, a counter-clockwise turn, and the rounded value is zero:
    Collinear.  On three points of one line, (0, 0), (2^600, 2^600),
    (2^601, 2^601), the cross product is zero and the computed value is
    not a number: CounterClockwise. *)
Lemma orientation_misses_the_sign :
  (let '(p, q, r) := Machine.near_diagonal in
   Machine.exact_turn p q r = Lt /\
   Machine.orientation p q r = Collinear /\ Machine.ccw p q r = false) /\
  (let '(p, q, r) := Machine.far_diagonal in
   Machine.exact_turn p q r = Eq /\
   Machine.orientation p q r = CounterClockwise /\ Machine.ccw p q r = true).
Proof.
  cbv beta iota zeta delta [Machine.near_diagonal Machine.far_diagonal].
  repeat split; vm_compute; reflexivity.
Qed.

(** ** The scan on doubles: what each [ccw] test leaves behind *)

Lemma machine_graham_scan_cases
    (libm_atan2 : PrimFloat.float -> PrimFloat.float -> PrimFloat.float)
    (self : Machine.ConvexHull2D) (start : Machine.Point2D) :
  Machine.py_min Machine.min_key (Machine.points self) = Return start ->
  (length (Machine.filtered_of libm_atan2 start (Machine.points self)) < 2)%nat
  /\
  Machine.graham_scan libm_atan2 self =
  Return (start :: Machine.filtered_of libm_atan2 start (Machine.points self),
          self)
  \/
  exists f0 f1 rest,
    Machine.filtered_of libm_atan2 start (Machine.points self) =
    f0 :: f1 :: rest /\
    Machine.graham_scan libm_atan2 self =
    Return (rev (fold_left Machine.scan_step rest [f1; f0; start]),
            {| Machine.points := Machine.points self;
               Machine.hull :=
                 rev (fold_left Machine.scan_step rest [f1; f0; start]) |}).
Proof.
  intros Hmin. unfold Machine.graham_scan. rewrite Hmin. simpl.
  fold (Machine.filtered_of libm_atan2 start (Machine.points self)).
  destruct (Machine.filtered_of libm_atan2 start (Machine.points self))
    as [| f0 [| f1 rest]] eqn:E.
  - left. split; [simpl; lia | reflexivity].
  - left. split; [simpl; lia | reflexivity].
  - right. exists f0, f1, rest. split; reflexivity.
Qed.

Lemma machine_tested_pop_while (s f0 f1 p : Machine.Point2D)
    (stack : list Machine.Point2D) :
  Machine.tested s f0 f1 stack ->
  Machine.tested s f0 f1 (Machine.pop_while p stack).
Proof.
  induction stack as [| top below IH]; simpl; [auto |].
  intros [Htop Hbelow]. destruct below as [| second below'].
  - simpl. auto.
  - destruct (negb (Machine.ccw second top p)).
    + apply IH. exact Hbelow.
    + simpl. split; [exact Htop | exact Hbelow].
Qed.

(** Where [pop_while] stops with two points or more, the new point passes
    [ccw] after the upper two. *)
Lemma machine_pop_while_top (p : Machine.Point2D)
    (stack : list Machine.Point2D) :
  match Machine.pop_while p stack with
  | top :: second :: _ => Machine.ccw second top p = true
  | _ => True
  end.
Proof.
  induction stack as [| top below IH]; simpl; [exact I |].
  destruct below as [| second below']; [exact I |].
  destruct (Machine.ccw second top p) eqn:E; simpl.
  - exact E.
  - exact IH.
Qed.

Lemma machine_tested_scan_step (s f0 f1 p : Machine.Point2D)
    (stack : list Machine.Point2D) :
  Machine.tested s f0 f1 stack ->
  Machine.tested s f0 f1 (Machine.scan_step stack p).
Proof.
  intros H. unfold Machine.scan_step.
  pose proof (machine_tested_pop_while s f0 f1 p stack H) as Hpop.
  pose proof (machine_pop_while_top p stack) as Htop.
  destruct (Machine.pop_while p stack) as [| top [| second rest]];
    simpl; auto.
Qed.

Lemma machine_tested_fold (s f0 f1 : Machine.Point2D)
    (rest : list Machine.Point2D) :
  forall stack,
    Machine.tested s f0 f1 stack ->
    Machine.tested s f0 f1 (fold_left Machine.scan_step rest stack).
Proof.
  induction rest as [| p rest IH]; intros stack H; simpl; [exact H |].
  apply IH. apply machine_tested_scan_step. exact H.
Qed.

Lemma machine_tested_nth (s f0 f1 d : Machine.Point2D)
    (stack : list Machine.Point2D) :
  Machine.tested s f0 f1 stack ->
  forall j, (j + 2 < length stack)%nat ->
  Machine.ccw (nth (j + 2) stack d) (nth (j + 1) stack d) (nth j stack d)
  = true \/
  ((j + 3)%nat = length stack /\ nth (j + 2) stack d = s /\
   nth (j + 1) stack d = f0 /\ nth j stack d = f1).
Proof.
  induction stack as [| c below IH]; simpl; [intros _ j Hj; lia |].
  intros [Hc Hok] j Hj. destruct j as [| j].
  - destruct below as [| b [| a below']]; simpl in *; try lia.
    destruct Hc as [Hc | [-> [-> [-> ->]]]]; [left; exact Hc |].
    right. repeat split; reflexivity.
  - simpl. destruct (IH Hok j) as [H | [H1 H2]]; [lia | left; exact H |].
    right. split; [lia | exact H2].
Qed.

Lemma nth_error_nth_rev {A : Type} (d : A) (l : list A) (i : nat) (a : A) :
  nth_error (rev l) i = Some a ->
  (i < length l)%nat /\ nth (length l - S i) l d = a.
Proof.
  intros H.
  assert (Hi : (i < length l)%nat).
  { rewrite <- length_rev. apply nth_error_Some. congruence. }
  split; [exact Hi |].
  rewrite <- (rev_involutive l) at 2. rewrite rev_nth.
  - rewrite length_rev.
    replace (length l - S (length l - S i))%nat with i by lia.
    apply nth_error_nth. exact H.
  - rewrite length_rev. lia.
Qed.

Lemma machine_init_inv (pts : list Machine.Point2D)
    (self : Machine.ConvexHull2D) :
  Machine.init pts = Return self ->
  (3 <= length pts)%nat /\ self = Machine.engine pts.
Proof.
  unfold Machine.init, Machine.engine.
  destruct (Nat.ltb_spec (length pts) 3) as [H | H]; [discriminate |].
  intros E. injection E as <-. split; [exact H | reflexivity].
Qed.

Lemma machine_py_min_total {A : Type}
    (key : A -> PrimFloat.float * PrimFloat.float) (items : list A) :
  items <> [] -> exists m, Machine.py_min key items = Return m.
Proof.
  destruct items as [| first rest]; [congruence |].
  intros _. eexists. reflexivity.
Qed.

Lemma machine_scan_tested
    (libm_atan2 : PrimFloat.float -> PrimFloat.float -> PrimFloat.float)
    (self self' : Machine.ConvexHull2D) (h : list Machine.Point2D)
    (i : nat) (a b c : Machine.Point2D) :
  Machine.graham_scan libm_atan2 self = Return (h, self') ->
  nth_error h i = Some a -> nth_error h (i + 1) = Some b ->
  nth_error h (i + 2) = Some c ->
  Machine.ccw a b c = true \/
  (i = 0%nat /\ exists rest,
     Machine.filtered_of libm_atan2 a (Machine.points self) = b :: c :: rest).
Proof.
  intros Hrun Ha Hb Hc.
  destruct (Machine.py_min Machine.min_key (Machine.points self))
    as [start | e] eqn:Hmin.
  2:{ unfold Machine.graham_scan in Hrun. rewrite Hmin in Hrun.
      discriminate. }
  destruct (machine_graham_scan_cases libm_atan2 self start Hmin)
    as [[Hlen Hret] | [f0 [f1 [rest [Hf Hret]]]]];
    rewrite Hret in Hrun; injection Hrun as <- <-.
  - exfalso. assert (Hi : (i + 2 < S (length
      (Machine.filtered_of libm_atan2 start (Machine.points self))))%nat).
    { change (S (length (Machine.filtered_of libm_atan2 start
                           (Machine.points self))))
        with (length (start :: Machine.filtered_of libm_atan2 start
                                 (Machine.points self))).
      apply nth_error_Some. congruence. }
    lia.
  - set (stack := fold_left Machine.scan_step rest [f1; f0; start]) in *.
    assert (Hok : Machine.tested start f0 f1 stack).
    { apply machine_tested_fold. simpl.
      split; [right; repeat split; reflexivity | auto]. }
    destruct (nth_error_nth_rev start stack i a Ha) as [Hia Ea].
    destruct (nth_error_nth_rev start stack (i + 1) b Hb) as [Hib Eb].
    destruct (nth_error_nth_rev start stack (i + 2) c Hc) as [Hic Ec].
    pose proof (machine_tested_nth start f0 f1 start stack Hok
                  (length stack - S (i + 2))) as Ht.
    replace (length stack - S (i + 2) + 2)%nat with (length stack - S i)%nat
      in Ht by lia.
    replace (length stack - S (i + 2) + 1)%nat
      with (length stack - S (i + 1))%nat in Ht by lia.
    rewrite Ea, Eb, Ec in Ht.
    destruct Ht as [Ht | [Hl [-> [-> ->]]]]; [lia | left; exact Ht |].
    right. split; [lia |]. exists rest. exact Hf.
Qed.

(** C3 (as amended).  On an engine built from a list of at least 3 points
    [graham_scan] returns a hull in which three consecutive vertices h[i],
    h[i+1], h[i+2] (not wrapping round) pass the double-precision test
    [ccw], with one exception: the first three vertices when they are the
    pivot and the first two sorted candidates, the three the scan starts from
    without a test.  The scan tests no triple that wraps round through the
    first vertex, and [ccw] is the turn as computed in doubles, not the exact
    one. *)
Theorem graham_scan_tested_turns
    (libm_atan2 : PrimFloat.float -> PrimFloat.float -> PrimFloat.float)
    (pts : list Machine.Point2D) (self : Machine.ConvexHull2D) :
  Machine.init pts = Return self ->
  exists h self',
    Machine.graham_scan libm_atan2 self = Return (h, self') /\
    forall i a b c,
      nth_error h i = Some a -> nth_error h (i + 1) = Some b ->
      nth_error h (i + 2) = Some c ->
      Machine.ccw a b c = true \/
      (i = 0%nat /\ exists rest,
         Machine.filtered_of libm_atan2 a pts = b :: c :: rest).
Proof.
  intros H. apply machine_init_inv in H. destruct H as [Hlen ->].
  destruct (machine_py_min_total Machine.min_key pts) as [s Hmin].
  { destruct pts; simpl in Hlen; [lia | discriminate]. }
  destruct (Machine.graham_scan libm_atan2 (Machine.engine pts))
    as [[h self'] | e] eqn:Hrun.
  - exists h, self'. split; [reflexivity |].
    intros i a b c. exact (machine_scan_tested libm_atan2 _ _ _ i a b c Hrun).
  - unfold Machine.graham_scan in Hrun.
    cbn [Machine.points Machine.engine] in Hrun.
    rewrite Hmin in Hrun. cbn [bind] in Hrun.
    destruct (length _ <? 2)%nat in Hrun; discriminate.
Qed.

(** The scan of the unit square. *)
Lemma graham_scan_tested_turns_witness :
  Machine.init Machine.unit_square =
  Return (Machine.engine Machine.unit_square) /\
  exists h self',
    Machine.graham_scan Machine.atan2_of_diagonal
      (Machine.engine Machine.unit_square) = Return (h, self') /\
    forall i a b c,
      nth_error h i = Some a -> nth_error h (i + 1) = Some b ->
      nth_error h (i + 2) = Some c ->
      Machine.ccw a b c = true \/
      (i = 0%nat /\ exists rest,
         Machine.filtered_of Machine.atan2_of_diagonal a Machine.unit_square =
         b :: c :: rest).
Proof.
  split; [reflexivity |].
  exact (graham_scan_tested_turns Machine.atan2_of_diagonal
           Machine.unit_square (Machine.engine Machine.unit_square) eq_refl).
Defined.

(** Evaluation of the scan's preparation where the arc tangent is known
    only at some points: the known angles are rewritten, and the
    comparisons between doubles are computed. *)
Ltac machine_compare :=
  repeat match goal with
  | |- context [Machine.tuple_lt (?a, ?b) (?c, ?d)] =>
      let v := eval vm_compute in (Machine.tuple_lt (a, b) (c, d)) in
      match v with
      | true => change (Machine.tuple_lt (a, b) (c, d)) with true
      | false => change (Machine.tuple_lt (a, b) (c, d)) with false
      end
  | |- context [PrimFloat.ltb ?a ?b] =>
      let v := eval vm_compute in (PrimFloat.ltb a b) in
      match v with
      | true => change (PrimFloat.ltb a b) with true
      | false => change (PrimFloat.ltb a b) with false
      end
  end.

Ltac machine_prepare angles :=
  repeat progress
    (cbn [Machine.sorted fold_right Machine.insert_sorted
          Machine.remove_same_angle_points Machine.remove_same_angle_loop
          rev app];
     unfold Machine.sort_key, Machine.same_angle;
     angles; machine_compare).

Lemma machine_filtered_of_dented
    (libm_atan2 : PrimFloat.float -> PrimFloat.float -> PrimFloat.float) :
  Machine.angles_of_dented libm_atan2 ->
  Machine.filtered_of libm_atan2 Machine.dent0 Machine.dented =
  [Machine.dent1; Machine.dent2; Machine.dent3].
Proof.
  intros [H1 H2].
  assert (A1 : Machine.polar_angle libm_atan2 Machine.dent0 Machine.dent1 =
               PrimFloat.zero) by (vm_compute; reflexivity).
  assert (A2 : Machine.polar_angle libm_atan2 Machine.dent0 Machine.dent2 = _)
    by (vm_compute; exact H1).
  assert (A3 : Machine.polar_angle libm_atan2 Machine.dent0 Machine.dent3 = _)
    by (vm_compute; exact H2).
  unfold Machine.filtered_of.
  replace (filter _ Machine.dented)
    with [Machine.dent1; Machine.dent2; Machine.dent3]
    by (vm_compute; reflexivity).
  machine_prepare ltac:(rewrite ?A1, ?A2, ?A3).
  reflexivity.
Qed.

(** Hulls that [graham_scan] returns with turns that are not
    counter-clockwise.  The tiny triangle comes back as it is, and [ccw] is
    false of each of its three triples: their cross products underflow to
    zero.  The four points of [dented] come back all four, whatever the arc
    tangent returns off the axes as long as it returns for (0.4, 0.1) and
    (1, 0.3) what [math.atan2] does; the turn at the third vertex, from
    (0.1, 0) over (0.4, 0.1) to (1, 0.3), is clockwise, its cross product is
    positive, and the rounded value that [ccw] sees is negative. *)
Lemma graham_scan_returns_other_turns :
  (forall libm_atan2,
     Machine.graham_scan libm_atan2 (Machine.engine Machine.tiny_triangle) =
     Return (Machine.tiny_triangle,
             {| Machine.points := Machine.tiny_triangle;
                Machine.hull := Machine.tiny_triangle |})) /\
  (Machine.ccw Machine.tiny0 Machine.tiny1 Machine.tiny2 = false /\
   Machine.ccw Machine.tiny1 Machine.tiny2 Machine.tiny0 = false /\
   Machine.ccw Machine.tiny2 Machine.tiny0 Machine.tiny1 = false) /\
  (forall libm_atan2,
     Machine.angles_of_dented libm_atan2 ->
     Machine.graham_scan libm_atan2 (Machine.engine Machine.dented) =
     Return (Machine.dented,
             {| Machine.points := Machine.dented;
                Machine.hull := Machine.dented |})) /\
  Machine.exact_turn Machine.dent1 Machine.dent2 Machine.dent3 = Gt /\
  Machine.ccw Machine.dent1 Machine.dent2 Machine.dent3 = true.
Proof.
  split; [intros libm_atan2; vm_compute; reflexivity |].
  split; [repeat split; vm_compute; reflexivity |].
  split.
  - intros libm_atan2 H.
    destruct (machine_graham_scan_cases libm_atan2
                (Machine.engine Machine.dented) Machine.dent0 eq_refl)
      as [[Hlen _] | [f0 [f1 [rest [Hf Hret]]]]];
      cbn [Machine.points Machine.engine] in *;
      rewrite (machine_filtered_of_dented libm_atan2 H) in *.
    + simpl in Hlen. lia.
    + injection Hf as <- <- <-. rewrite Hret. vm_compute. reflexivity.
  - split; vm_compute; reflexivity.
Qed.

(** ** Candidates in one direction *)

Lemma float_ltb_false_trans (a b c : PrimFloat.float) :
  PrimFloat.is_nan b = false ->
  PrimFloat.ltb a b = false -> PrimFloat.ltb b c = false ->
  PrimFloat.ltb a c = false.
Proof.
  intros Nb Hab Hbc. destruct (PrimFloat.ltb a c) eqn:Hac; [| reflexivity].
  exfalso. destruct (float_ltb_not_nan a c Hac) as [Na Nc].
  destruct (PrimFloat.ltb b a) eqn:Hba.
  - pose proof (float_ltb_trans b a c Hba Hac). congruence.
  - pose proof (float_ltb_total a b Na Nb Hab Hba) as Eab.
    rewrite float_eqb_sym in Eab.
    pose proof (float_eqb_ltb b a c Eab Hac). congruence.
Qed.

Lemma machine_insert_sorted_In {A : Type}
    (key : A -> PrimFloat.float * PrimFloat.float)
    (a b : A) (l : list A) :
  In b (Machine.insert_sorted key a l) <-> b = a \/ In b l.
Proof.
  induction l as [| c l IH]; simpl.
  - intuition congruence.
  - destruct (Machine.tuple_lt (key c) (key a)); simpl;
      rewrite ?IH; intuition congruence.
Qed.

Lemma machine_sorted_In {A : Type}
    (key : A -> PrimFloat.float * PrimFloat.float)
    (b : A) (l : list A) :
  In b (Machine.sorted key l) <-> In b l.
Proof.
  induction l as [| a l IH]; simpl; [tauto |].
  rewrite machine_insert_sorted_In, IH. intuition congruence.
Qed.

Section SameAngle.
Variable libm_atan2 : PrimFloat.float -> PrimFloat.float -> PrimFloat.float.
Variable s : Machine.Point2D.

(** With every candidate in the direction of the others, the loop keeps
    one point, and none of the others is found farther than it. *)
Lemma machine_remove_same_angle_loop_one (rest : list Machine.Point2D) :
  forall last,
    (forall a b, In a (last :: rest) -> In b (last :: rest) ->
                 Machine.same_angle libm_atan2 s a b = true) ->
    (forall q, In q (last :: rest) ->
               PrimFloat.is_nan (Machine.distance_to s q) = false) ->
    exists p,
      Machine.remove_same_angle_loop libm_atan2 s [last] rest = [p] /\
      In p (last :: rest) /\
      forall q, In q (last :: rest) ->
                PrimFloat.ltb (Machine.distance_to s p)
                  (Machine.distance_to s q) = false.
Proof.
  induction rest as [| r rest IH]; intros last Hsame Hnan.
  - exists last. split; [reflexivity |]. split; [left; reflexivity |].
    intros q [<- | []]. apply float_ltb_irrefl.
  - simpl. rewrite (Hsame last r) by (simpl; auto).
    destruct (PrimFloat.ltb (Machine.distance_to s last)
                (Machine.distance_to s r)) eqn:E.
    + destruct (IH r) as [p [Hp [Hin Hmax]]].
      { intros a b Ha Hb. apply Hsame; right; assumption. }
      { intros q Hq. apply Hnan. right. assumption. }
      exists p. split; [exact Hp |]. split; [right; exact Hin |].
      intros q [<- | Hq]; [| apply Hmax; exact Hq].
      destruct (PrimFloat.ltb (Machine.distance_to s p)
                  (Machine.distance_to s last)) eqn:E'; [| reflexivity].
      pose proof (float_ltb_trans _ _ _ E' E) as Hpr.
      rewrite (Hmax r) in Hpr by (left; reflexivity). discriminate.
    + destruct (IH last) as [p [Hp [Hin Hmax]]].
      { intros a b Ha Hb. apply Hsame; simpl in *; tauto. }
      { intros q Hq. apply Hnan. simpl in *. tauto. }
      exists p. split; [exact Hp |]. split; [simpl in *; tauto |].
      intros q [<- | [<- | Hq]].
      * apply Hmax. left. reflexivity.
      * apply (float_ltb_false_trans _ (Machine.distance_to s last)).
        -- apply Hnan. left. reflexivity.
        -- apply Hmax. left. reflexivity.
        -- exact E.
      * apply Hmax. right. exact Hq.
Qed.
End SameAngle.

(** C9 (as amended).  When all points other than the pivot have, as
    computed, the same polar angle around the pivot up to the tolerance
    1e-9 (the code's own test for lying in one direction), [graham_scan]
    does not fail and returns the pivot alone, when every point equals it,
    or the pivot followed by one input point [p]; no other point is
    farther from the pivot than [p] by the computed distances.  Computed
    distances of different points can be equal, so [p] need not be the far
    end of the line. *)
Theorem graham_scan_one_direction
    (libm_atan2 : PrimFloat.float -> PrimFloat.float -> PrimFloat.float)
    (self : Machine.ConvexHull2D) (s : Machine.Point2D) :
  Machine.py_min Machine.min_key (Machine.points self) = Return s ->
  (forall p q,
     In p (Machine.points self) -> In q (Machine.points self) ->
     Machine.Point2D_eq p s = false -> Machine.Point2D_eq q s = false ->
     Machine.same_angle libm_atan2 s p q = true) ->
  (forall q, In q (Machine.points self) ->
             PrimFloat.is_nan (Machine.distance_to s q) = false) ->
  (Machine.graham_scan libm_atan2 self = Return ([s], self) /\
   forall q, In q (Machine.points self) -> Machine.Point2D_eq q s = true)
  \/
  exists p,
    Machine.graham_scan libm_atan2 self = Return ([s; p], self) /\
    In p (Machine.points self) /\ Machine.Point2D_eq p s = false /\
    forall q, In q (Machine.points self) ->
              Machine.Point2D_eq q s = false ->
              PrimFloat.ltb (Machine.distance_to s p)
                (Machine.distance_to s q) = false.
Proof.
  intros Hmin Hsame Hnan.
  assert (Hothers : forall q,
            In q (Machine.sorted (Machine.sort_key libm_atan2 s)
                    (filter (fun p => negb (Machine.Point2D_eq p s))
                       (Machine.points self))) <->
            In q (Machine.points self) /\ Machine.Point2D_eq q s = false).
  { intros q. rewrite machine_sorted_In, filter_In, negb_true_iff.
    reflexivity. }
  unfold Machine.graham_scan. rewrite Hmin. cbn [bind].
  destruct (Machine.sorted (Machine.sort_key libm_atan2 s)
              (filter (fun p => negb (Machine.Point2D_eq p s))
                 (Machine.points self))) as [| first rest] eqn:E.
  - left. split; [reflexivity |].
    intros q Hq. destruct (Machine.Point2D_eq q s) eqn:Eq; [reflexivity |].
    exfalso. apply (proj2 (Hothers q)). split; assumption.
  - right.
    destruct (machine_remove_same_angle_loop_one libm_atan2 s rest first)
      as [p [Hp [Hin Hmax]]].
    { intros a b Ha Hb. apply Hothers in Ha, Hb.
      apply Hsame; tauto. }
    { intros q Hq. apply Hothers in Hq. apply Hnan. tauto. }
    exists p. cbn [Machine.remove_same_angle_points]. rewrite Hp.
    split; [reflexivity |].
    apply Hothers in Hin. split; [tauto |]. split; [tauto |].
    intros q Hq Hne. apply Hmax. apply Hothers. tauto.
Qed.

Lemma graham_scan_one_direction_witness :
  Machine.py_min Machine.min_key Machine.level_line =
  Return Machine.level0 /\
  exists p,
    Machine.graham_scan Machine.atan2_of_diagonal
      (Machine.engine Machine.level_line) =
    Return ([Machine.level0; p], Machine.engine Machine.level_line) /\
    In p Machine.level_line /\
    Machine.Point2D_eq p Machine.level0 = false /\
    forall q, In q Machine.level_line ->
              Machine.Point2D_eq q Machine.level0 = false ->
              PrimFloat.ltb (Machine.distance_to Machine.level0 p)
                (Machine.distance_to Machine.level0 q) = false.
Proof.
  split; [reflexivity |].
  destruct (graham_scan_one_direction Machine.atan2_of_diagonal
              (Machine.engine Machine.level_line) Machine.level0 eq_refl)
    as [[_ H] | H].
  - intros p q Hp Hq _ _. simpl in Hp, Hq.
    destruct Hp as [<- | [<- | [<- | []]]];
      destruct Hq as [<- | [<- | [<- | []]]]; reflexivity.
  - intros q Hq. simpl in Hq.
    destruct Hq as [<- | [<- | [<- | []]]]; reflexivity.
  - exfalso. specialize (H Machine.level1 (or_intror (or_introl eq_refl))).
    vm_compute in H. discriminate.
  - exact H.
Defined.

(** Three points of the x axis: [graham_scan] returns the pivot and the
    point nearer to it, (1e-17, 0), and not the far end of the line,
    (2e-17, 0).  The differences of the x coordinates to the pivot's both
    round to 1. *)
Lemma graham_scan_keeps_the_nearer_point :
  (forall libm_atan2,
     Machine.graham_scan libm_atan2 (Machine.engine Machine.level_line) =
     Return ([Machine.level0; Machine.level1],
             Machine.engine Machine.level_line)) /\
  Machine.exact_turn Machine.level0 Machine.level1 Machine.level2 = Eq /\
  Machine.exact_compare (Machine.x Machine.level0) (Machine.x Machine.level1)
  = Lt /\
  Machine.exact_compare (Machine.x Machine.level1) (Machine.x Machine.level2)
  = Lt /\
  Machine.distance_to Machine.level0 Machine.level1 =
  Machine.distance_to Machine.level0 Machine.level2.
Proof.
  split; [intros libm_atan2; vm_compute; reflexivity |].
  repeat split; vm_compute; reflexivity.
Qed.

(** ** The order of tuples of doubles *)

Lemma machine_tuple_lt_irrefl (k : PrimFloat.float * PrimFloat.float) :
  Machine.tuple_lt k k = false.
Proof.
  unfold Machine.tuple_lt. destruct (PrimFloat.eqb _ _); apply float_ltb_irrefl.
Qed.

Lemma machine_tuple_lt_trans (a b c : PrimFloat.float * PrimFloat.float) :
  Machine.tuple_lt a b = true -> Machine.tuple_lt b c = true ->
  Machine.tuple_lt a c = true.
Proof.
  destruct a as [a1 a2], b as [b1 b2], c as [c1 c2].
  unfold Machine.tuple_lt. cbn [fst snd].
  destruct (PrimFloat.eqb a1 b1) eqn:Eab, (PrimFloat.eqb b1 c1) eqn:Ebc;
    intros Hab Hbc.
  - rewrite (float_eqb_trans _ _ _ Eab Ebc).
    exact (float_ltb_trans _ _ _ Hab Hbc).
  - pose proof (float_eqb_ltb _ _ _ Eab Hbc) as H.
    rewrite (float_ltb_not_eqb _ _ H). exact H.
  - pose proof (float_ltb_eqb _ _ _ Hab Ebc) as H.
    rewrite (float_ltb_not_eqb _ _ H). exact H.
  - pose proof (float_ltb_trans _ _ _ Hab Hbc) as H.
    rewrite (float_ltb_not_eqb _ _ H). exact H.
Qed.

Lemma machine_tuple_lt_asym (a b : PrimFloat.float * PrimFloat.float) :
  Machine.tuple_lt a b = true -> Machine.tuple_lt b a = false.
Proof.
  intros H. destruct (Machine.tuple_lt b a) eqn:E; [| reflexivity].
  rewrite <- (machine_tuple_lt_irrefl a). symmetry.
  exact (machine_tuple_lt_trans _ _ _ H E).
Qed.

(** Keys that [<] does not order either way are equal part by part, when
    their parts are numbers. *)
Lemma machine_tuple_tie (a b : PrimFloat.float * PrimFloat.float) :
  Machine.is_number a -> Machine.is_number b ->
  Machine.tuple_lt a b = false -> Machine.tuple_lt b a = false ->
  Machine.same_key a b = true.
Proof.
  destruct a as [a1 a2], b as [b1 b2].
  unfold Machine.is_number, Machine.tuple_lt, Machine.same_key.
  cbn [fst snd]. intros [Na1 Na2] [Nb1 Nb2].
  rewrite (float_eqb_sym b1 a1).
  destruct (PrimFloat.eqb a1 b1) eqn:E; intros Hab Hba.
  - rewrite (float_ltb_total a2 b2 Na2 Nb2 Hab Hba). reflexivity.
  - rewrite (float_ltb_total a1 b1 Na1 Nb1 Hab Hba) in E. discriminate.
Qed.

Lemma machine_tuple_lt_false_trans
    (a b c : PrimFloat.float * PrimFloat.float) :
  Machine.is_number b ->
  Machine.tuple_lt a b = false -> Machine.tuple_lt b c = false ->
  Machine.tuple_lt a c = false.
Proof.
  intros Nb Hab Hbc. destruct (Machine.tuple_lt a c) eqn:Hac; [| reflexivity].
  exfalso. destruct a as [a1 a2], b as [b1 b2], c as [c1 c2].
  unfold Machine.is_number, Machine.tuple_lt in *. cbn [fst snd] in *.
  destruct Nb as [Nb1 Nb2].
  assert (Na1 : PrimFloat.is_nan a1 = false /\ PrimFloat.is_nan c1 = false).
  { destruct (PrimFloat.eqb a1 c1) eqn:E.
    - apply float_eqb_not_nan. exact E.
    - apply float_ltb_not_nan. exact Hac. }
  destruct Na1 as [Na1 Nc1].
  destruct (PrimFloat.eqb a1 b1) eqn:Eab.
  - destruct (PrimFloat.eqb b1 c1) eqn:Ebc.
    + rewrite (float_eqb_trans _ _ _ Eab Ebc) in Hac.
      rewrite (float_ltb_false_trans a2 b2 c2 Nb2 Hab Hbc) in Hac. discriminate.
    + destruct (PrimFloat.eqb a1 c1) eqn:Eac.
      * rewrite float_eqb_sym in Eab.
        rewrite (float_eqb_trans _ _ _ Eab Eac) in Ebc. discriminate.
      * rewrite float_eqb_sym in Eab.
        rewrite (float_eqb_ltb _ _ _ Eab Hac) in Hbc. discriminate.
  - destruct (PrimFloat.ltb b1 a1) eqn:Lba.
    + destruct (PrimFloat.eqb a1 c1) eqn:Eac.
      * pose proof (float_ltb_eqb _ _ _ Lba Eac) as Lbc.
        rewrite (float_ltb_not_eqb _ _ Lbc) in Hbc. congruence.
      * pose proof (float_ltb_trans _ _ _ Lba Hac) as Lbc.
        rewrite (float_ltb_not_eqb _ _ Lbc) in Hbc. congruence.
    + rewrite (float_ltb_total a1 b1 Na1 Nb1 Hab Lba) in Eab. discriminate.
Qed.

(** ** [min] and [sorted] on keys that are numbers *)

Section MachineBuiltins.
Context {A : Type}.
Variable key : A -> PrimFloat.float * PrimFloat.float.

Lemma machine_min_loop_In (rest : list A) (best : A) :
  In (Machine.min_loop key best rest) (best :: rest).
Proof.
  revert best. induction rest as [| item rest IH]; intros best; simpl.
  - left. reflexivity.
  - destruct (Machine.tuple_lt (key item) (key best)).
    + right. apply IH.
    + destruct (IH best) as [H | H]; [left | right; right]; assumption.
Qed.

Lemma machine_min_loop_le_best (rest : list A) (best : A) :
  Machine.tuple_lt (key best) (key (Machine.min_loop key best rest)) = false.
Proof.
  revert best. induction rest as [| item rest IH]; intros best; simpl.
  - apply machine_tuple_lt_irrefl.
  - destruct (Machine.tuple_lt (key item) (key best)) eqn:E; [| apply IH].
    destruct (Machine.tuple_lt (key best)
                (key (Machine.min_loop key item rest))) eqn:E';
      [| reflexivity].
    rewrite <- (IH item). symmetry.
    exact (machine_tuple_lt_trans _ _ _ E E').
Qed.

Lemma machine_min_loop_minimal (rest : list A) (best p : A) :
  (forall a, In a (best :: rest) -> Machine.is_number (key a)) ->
  In p (best :: rest) ->
  Machine.tuple_lt (key p) (key (Machine.min_loop key best rest)) = false.
Proof.
  revert best. induction rest as [| item rest IH]; intros best Hnum Hin.
  - destruct Hin as [<- | []]. apply machine_min_loop_le_best.
  - destruct Hin as [<- | [<- | Hin]].
    + apply machine_min_loop_le_best.
    + simpl. destruct (Machine.tuple_lt (key item) (key best)) eqn:E.
      * apply machine_min_loop_le_best.
      * apply (machine_tuple_lt_false_trans _ (key best)).
        -- apply Hnum. left. reflexivity.
        -- exact E.
        -- apply machine_min_loop_le_best.
    + simpl. destruct (Machine.tuple_lt (key item) (key best)) eqn:E.
      * apply IH; [| right; assumption].
        intros a Ha. apply Hnum. right. exact Ha.
      * apply IH; [| right; assumption].
        intros a [<- | Ha]; apply Hnum; simpl; auto.
Qed.

Lemma machine_insert_sorted_perm (a : A) (l : list A) :
  Permutation (a :: l) (Machine.insert_sorted key a l).
Proof.
  induction l as [| b l IH]; simpl.
  - apply Permutation_refl.
  - destruct (Machine.tuple_lt (key b) (key a)).
    + eapply perm_trans; [apply perm_swap |]. apply perm_skip. exact IH.
    + apply Permutation_refl.
Qed.

Lemma machine_sorted_perm (l : list A) :
  Permutation l (Machine.sorted key l).
Proof.
  induction l as [| a l IH]; simpl.
  - apply perm_nil.
  - eapply perm_trans; [| apply machine_insert_sorted_perm].
    apply perm_skip. exact IH.
Qed.

Lemma machine_insert_sorted_sorted (a : A) (l : list A) :
  (forall b, In b l -> Machine.is_number (key b)) ->
  StronglySorted (Machine.key_le key) l ->
  StronglySorted (Machine.key_le key) (Machine.insert_sorted key a l).
Proof.
  intros Hnum Hs. induction Hs as [| b l Hs IH Hf]; simpl.
  - constructor; [constructor | constructor].
  - destruct (Machine.tuple_lt (key b) (key a)) eqn:E.
    + constructor.
      * apply IH. intros c Hc. apply Hnum. right. exact Hc.
      * apply Forall_forall. intros c Hc.
        apply (Permutation_in _
                 (Permutation_sym (machine_insert_sorted_perm a l))) in Hc.
        destruct Hc as [<- | Hc].
        -- unfold Machine.key_le. apply machine_tuple_lt_asym. exact E.
        -- rewrite Forall_forall in Hf. apply Hf. exact Hc.
    + constructor.
      * constructor; assumption.
      * constructor; [exact E |].
        apply Forall_forall. intros c Hc.
        rewrite Forall_forall in Hf. specialize (Hf c Hc).
        unfold Machine.key_le in *.
        apply (machine_tuple_lt_false_trans _ (key b)).
        -- apply Hnum. left. reflexivity.
        -- exact Hf.
        -- exact E.
Qed.

Lemma machine_sorted_sorted (l : list A) :
  (forall b, In b l -> Machine.is_number (key b)) ->
  StronglySorted (Machine.key_le key) (Machine.sorted key l).
Proof.
  induction l as [| a l IH]; intros Hnum; simpl.
  - constructor.
  - apply machine_insert_sorted_sorted.
    + intros b Hb. apply Hnum. right.
      eapply Permutation_in;
        [apply Permutation_sym, machine_sorted_perm | exact Hb].
    + apply IH. intros b Hb. apply Hnum. right. exact Hb.
Qed.

(** [sorted] does not depend on the order of its input when the keys are
    numbers and only equal elements have equal keys. *)
Lemma machine_sorted_Permutation (l l' : list A) :
  (forall b, In b l -> Machine.is_number (key b)) ->
  (forall a b, In a l -> In b l ->
               Machine.same_key (key a) (key b) = true -> a = b) ->
  Permutation l l' ->
  Machine.sorted key l = Machine.sorted key l'.
Proof.
  intros Hnum Hinj Hp.
  assert (Hin : forall a, In a (Machine.sorted key l) -> In a l).
  { intros a Ha. eapply Permutation_in;
      [apply Permutation_sym, machine_sorted_perm | exact Ha]. }
  apply (StronglySorted_unique (Machine.key_le key)).
  - intros a b Ha Hb Hab Hba. apply Hin in Ha, Hb.
    apply Hinj; try assumption.
    apply machine_tuple_tie; auto.
  - apply machine_sorted_sorted. exact Hnum.
  - apply machine_sorted_sorted. intros b Hb. apply Hnum.
    eapply Permutation_in; [apply Permutation_sym; exact Hp | exact Hb].
  - eapply perm_trans; [apply Permutation_sym, machine_sorted_perm |].
    eapply perm_trans; [exact Hp | apply machine_sorted_perm].
Qed.
End MachineBuiltins.

(** The pivot does not depend on the order of the input when the
    coordinates are numbers and [==] holds between identical points
    only. *)
Lemma machine_py_min_Permutation (pts pts' : list Machine.Point2D)
    (s : Machine.Point2D) :
  Permutation pts pts' ->
  (forall p, In p pts -> Machine.is_number (Machine.min_key p)) ->
  (forall p q, In p pts -> In q pts ->
               Machine.Point2D_eq p q = true -> p = q) ->
  Machine.py_min Machine.min_key pts = Return s ->
  Machine.py_min Machine.min_key pts' = Return s.
Proof.
  intros Hp Hnum Heq Hmin.
  destruct pts as [| first rest]; [discriminate |].
  destruct pts' as [| first' rest'].
  { apply Permutation_sym, Permutation_nil in Hp. discriminate. }
  simpl in Hmin. injection Hmin as <-. simpl. f_equal.
  set (m := Machine.min_loop Machine.min_key first rest).
  set (m' := Machine.min_loop Machine.min_key first' rest').
  assert (Hm : In m (first :: rest)) by apply machine_min_loop_In.
  assert (Hm' : In m' (first' :: rest')) by apply machine_min_loop_In.
  assert (Hm'1 : In m' (first :: rest)).
  { eapply Permutation_in; [apply Permutation_sym; exact Hp | exact Hm']. }
  assert (Hnum' : forall a, In a (first' :: rest') ->
                            Machine.is_number (Machine.min_key a)).
  { intros a Ha. apply Hnum.
    eapply Permutation_in; [apply Permutation_sym; exact Hp | exact Ha]. }
  pose proof (machine_min_loop_minimal Machine.min_key rest first m'
                Hnum Hm'1) as H1.
  pose proof (machine_min_loop_minimal Machine.min_key rest' first' m
                Hnum' (Permutation_in _ Hp Hm)) as H2.
  fold m in H1. fold m' in H2.
  pose proof (machine_tuple_tie _ _ (Hnum m' Hm'1) (Hnum m Hm) H1 H2) as T.
  unfold Machine.same_key, Machine.min_key in T. cbn [fst snd] in T.
  apply andb_true_iff in T. destruct T as [Ty Tx].
  apply Heq; try assumption.
  unfold Machine.Point2D_eq. rewrite Tx, Ty. reflexivity.
Qed.

(** C8 (as amended).  [graham_scan] returns the same vertex sequence for
    two orders of the same input points when the comparisons of the run
    tell the points apart: the coordinates and the computed keys (polar
    angle, distance) are numbers, [==] holds between identical points only,
    and no two different points other than the pivot have equal computed
    keys.  Points whose computed keys are equal are kept in the order of the
    input, and the hull can then depend on it. *)
Theorem graham_scan_permutation_of_distinct_keys
    (libm_atan2 : PrimFloat.float -> PrimFloat.float -> PrimFloat.float)
    (self self' : Machine.ConvexHull2D) (s : Machine.Point2D) :
  Permutation (Machine.points self) (Machine.points self') ->
  Machine.py_min Machine.min_key (Machine.points self) = Return s ->
  (forall p, In p (Machine.points self) ->
             Machine.is_number (Machine.min_key p)) ->
  (forall p q, In p (Machine.points self) -> In q (Machine.points self) ->
               Machine.Point2D_eq p q = true -> p = q) ->
  (forall p, In p (Machine.points self) -> Machine.Point2D_eq p s = false ->
             Machine.is_number (Machine.sort_key libm_atan2 s p)) ->
  (forall p q, In p (Machine.points self) -> In q (Machine.points self) ->
               Machine.Point2D_eq p s = false ->
               Machine.Point2D_eq q s = false ->
               Machine.same_key (Machine.sort_key libm_atan2 s p)
                 (Machine.sort_key libm_atan2 s q) = true -> p = q) ->
  exists h after after',
    Machine.graham_scan libm_atan2 self = Return (h, after) /\
    Machine.graham_scan libm_atan2 self' = Return (h, after').
Proof.
  intros Hp Hmin Hnum Heq Hknum Hkinj.
  pose proof (machine_py_min_Permutation _ _ s Hp Hnum Heq Hmin) as Hmin'.
  unfold Machine.graham_scan. rewrite Hmin, Hmin'. cbn [bind].
  assert (E : Machine.sorted (Machine.sort_key libm_atan2 s)
                (filter (fun p => negb (Machine.Point2D_eq p s))
                   (Machine.points self)) =
              Machine.sorted (Machine.sort_key libm_atan2 s)
                (filter (fun p => negb (Machine.Point2D_eq p s))
                   (Machine.points self'))).
  { apply machine_sorted_Permutation.
    - intros b Hb. apply filter_In in Hb. destruct Hb as [Hb Hne].
      apply negb_true_iff in Hne. apply Hknum; assumption.
    - intros a b Ha Hb. apply filter_In in Ha, Hb.
      destruct Ha as [Ha Hna], Hb as [Hb Hnb].
      apply negb_true_iff in Hna, Hnb. apply Hkinj; assumption.
    - apply filter_Permutation. exact Hp. }
  rewrite <- E.
  destruct (length _ <? 2)%nat; eexists; eexists; eexists; split; reflexivity.
Qed.

Lemma graham_scan_permutation_of_distinct_keys_witness :
  Permutation Machine.unit_square Machine.unit_square_reversed /\
  exists h after after',
    Machine.graham_scan Machine.atan2_of_diagonal
      (Machine.engine Machine.unit_square) = Return (h, after) /\
    Machine.graham_scan Machine.atan2_of_diagonal
      (Machine.engine Machine.unit_square_reversed) = Return (h, after').
Proof.
  assert (Hp : Permutation Machine.unit_square Machine.unit_square_reversed).
  { exact (Permutation_rev Machine.unit_square). }
  split; [exact Hp |].
  apply (graham_scan_permutation_of_distinct_keys Machine.atan2_of_diagonal
           (Machine.engine Machine.unit_square)
           (Machine.engine Machine.unit_square_reversed)
           (Machine.mkPoint2D PrimFloat.zero PrimFloat.zero)).
  - exact Hp.
  - reflexivity.
  - intros p H. simpl in H.
    destruct H as [<- | [<- | [<- | [<- | []]]]]; split; reflexivity.
  - intros p q H1 H2. simpl in H1, H2.
    destruct H1 as [<- | [<- | [<- | [<- | []]]]];
      destruct H2 as [<- | [<- | [<- | [<- | []]]]];
      intros E; first [reflexivity | vm_compute in E; discriminate].
  - intros p H. simpl in H.
    destruct H as [<- | [<- | [<- | [<- | []]]]]; intros E;
      first [vm_compute in E; discriminate | split; reflexivity].
  - intros p q H1 H2. simpl in H1, H2.
    destruct H1 as [<- | [<- | [<- | [<- | []]]]];
      destruct H2 as [<- | [<- | [<- | [<- | []]]]];
      intros E1 E2 E; first [reflexivity | vm_compute in E; discriminate
                            | vm_compute in E1; discriminate
                            | vm_compute in E2; discriminate].
Defined.

(** The same three points of the x axis in two orders: [graham_scan]
    returns the pivot followed by (1e-17, 0) for one and by (2e-17, 0) for
    the other.  The two points have the same computed key, angle 0 and
    distance 1, and [sorted] keeps them in the order of the input. *)
Lemma graham_scan_depends_on_input_order :
  Permutation Machine.level_line Machine.level_line_swapped /\
  (forall libm_atan2,
     Machine.graham_scan libm_atan2 (Machine.engine Machine.level_line) =
     Return ([Machine.level0; Machine.level1],
             Machine.engine Machine.level_line) /\
     Machine.graham_scan libm_atan2
       (Machine.engine Machine.level_line_swapped) =
     Return ([Machine.level0; Machine.level2],
             Machine.engine Machine.level_line_swapped)) /\
  Machine.Point2D_eq Machine.level1 Machine.level2 = false.
Proof.
  split; [apply perm_skip, perm_swap |].
  split; [intros libm_atan2; split; vm_compute; reflexivity |].
  vm_compute. reflexivity.
Qed.

(** * Further properties of the code *)

(** ** Points and distances *)

(** X1. [Point2D.__lt__] is a strict total order on points that agrees
    with [__eq__]: no point is below itself, [p < q] excludes [q < p], the
    order is transitive, of two points one is below the other unless they
    are equal, and equal points are not ordered. *)
Theorem Point2D_lt_strict_total_order (p q r : Point2D) :
  Point2D_lt p p = false /\
  (Point2D_lt p q = true -> Point2D_lt q p = false) /\
  (Point2D_lt p q = true -> Point2D_lt q r = true -> Point2D_lt p r = true) /\
  (Point2D_lt p q = true \/ Point2D_eq p q = true \/ Point2D_lt q p = true) /\
  (Point2D_eq p q = true -> Point2D_lt p q = false).
Proof.
  assert (Hlt : forall a b, Point2D_lt a b = true <->
            x a < x b \/ (x a = x b /\ y a < y b)).
  { intros a b. unfold Point2D_lt.
    destruct (Reqb (x a) (x b)) eqn:E; simpl.
    - apply Reqb_true in E. rewrite Rltb_true. split; [tauto | lra].
    - apply Reqb_false in E. rewrite Rltb_true. split; [tauto | lra]. }
  assert (Hnlt : forall a b, Point2D_lt a b = false <->
            ~ (x a < x b \/ (x a = x b /\ y a < y b))).
  { intros a b. rewrite <- Hlt. destruct (Point2D_lt a b); split; congruence. }
  assert (Heq : forall a b, Point2D_eq a b = true <-> x a = x b /\ y a = y b).
  { intros a b. unfold Point2D_eq. rewrite andb_true_iff, !Reqb_true. tauto. }
  rewrite !Hlt, !Hnlt, !Heq. repeat split; intros; lra.
Qed.

Lemma distance_to_sym (p q : Point2D) : distance_to p q = distance_to q p.
Proof. unfold distance_to. cbv zeta. f_equal. ring. Qed.

(** ** Orientation *)

Lemma orientation_eq_of_val (p q r p' q' r' : Point2D) :
  orientation_val p' q' r' = orientation_val p q r ->
  orientation p' q' r' = orientation p q r.
Proof. unfold orientation. intros ->. reflexivity. Qed.

(** ** The same-angle filter and the engine *)

Lemma same_angle_false_gap (s a b : Point2D) :
  same_angle s a b = false -> angle_le s a b -> angle_gap s a b.
Proof.
  unfold same_angle, angle_le, angle_gap. rewrite Rltb_false.
  intros H Hle. rewrite Rabs_left1 in H by lra. lra.
Qed.

Lemma remove_same_angle_loop_gaps (s : Point2D) (pts : list Point2D) :
  forall last before,
    StronglySorted (fun a b => angle_gap s b a) (last :: before) ->
    StronglySorted (angle_le s) pts ->
    Forall (angle_le s last) pts ->
    StronglySorted (fun a b => angle_gap s b a)
      (remove_same_angle_loop s (last :: before) pts).
Proof.
  induction pts as [| p rest IH]; intros last before Hf Hs Hl; simpl.
  - exact Hf.
  - apply StronglySorted_inv in Hs. destruct Hs as [Hs Hp].
    inversion Hl as [| ? ? Hlp Hl']; subst.
    apply StronglySorted_inv in Hf. destruct Hf as [Hb Hlb].
    destruct (same_angle s last p) eqn:Esame.
    + destruct (Rltb (distance_to s last) (distance_to s p)).
      * apply IH; [| exact Hs | exact Hp].
        constructor; [exact Hb |].
        eapply Forall_impl; [| exact Hlb].
        intros a Ha. unfold angle_gap, angle_le in *. cbv beta in *. lra.
      * apply IH; [| exact Hs | exact Hl'].
        constructor; assumption.
    + pose proof (same_angle_false_gap s last p Esame Hlp) as Hgap.
      apply IH; [| exact Hs | exact Hp].
      constructor; [constructor; assumption |].
      constructor; [exact Hgap |].
      eapply Forall_impl; [| exact Hlb].
      intros a Ha. unfold angle_gap, angle_le in *. cbv beta in *. lra.
Qed.

Lemma remove_same_angle_loop_length (s : Point2D) (pts : list Point2D) :
  forall filtered,
    (length (remove_same_angle_loop s filtered pts) <=
     length filtered + length pts)%nat /\
    (filtered <> [] -> remove_same_angle_loop s filtered pts <> []).
Proof.
  induction pts as [| p rest IH]; intros filtered; simpl.
  - split; [lia | auto].
  - destruct filtered as [| last before].
    + destruct (IH [p]) as [H1 H2]. simpl in *. split; [lia | congruence].
    + destruct (same_angle s last p);
        [destruct (Rltb (distance_to s last) (distance_to s p)) |].
      * destruct (IH (p :: before)) as [H1 H2]. simpl in *.
        split; [lia | intros _; apply H2; discriminate].
      * destruct (IH (last :: before)) as [H1 H2]. simpl in *.
        split; [lia | intros _; apply H2; discriminate].
      * destruct (IH (p :: last :: before)) as [H1 H2]. simpl in *.
        split; [lia | intros _; apply H2; discriminate].
Qed.

Lemma remove_same_angle_points_gaps (s : Point2D) (pts : list Point2D) :
  StronglySorted (angle_le s) pts ->
  StronglySorted (angle_gap s) (remove_same_angle_points s pts).
Proof.
  intros Hs. destruct pts as [| first rest]; [constructor |].
  simpl. apply StronglySorted_inv in Hs. destruct Hs as [Hs Hf].
  apply (StronglySorted_rev (fun a b => angle_gap s b a)).
  apply remove_same_angle_loop_gaps; [| exact Hs | exact Hf].
  constructor; constructor.
Qed.

(** X7. On a list in ascending polar angle around the origin,
    [_remove_same_angle_points] returns a list that is empty only for an
    empty input, is no longer than the input, holds only input points, and
    in which every later point is at least the tolerance 1e-9 further
    round than every earlier one. *)
Theorem remove_same_angle_points_spaced (s : Point2D) (pts : list Point2D) :
  StronglySorted (angle_le s) pts ->
  (remove_same_angle_points s pts = [] <-> pts = []) /\
  (length (remove_same_angle_points s pts) <= length pts)%nat /\
  incl (remove_same_angle_points s pts) pts /\
  StronglySorted (angle_gap s) (remove_same_angle_points s pts).
Proof.
  intros Hs. destruct pts as [| first rest].
  - simpl. repeat split; auto using incl_refl; constructor.
  - split; [| split; [| split]].
    + simpl. split; [| discriminate]. intros H. exfalso.
      destruct (remove_same_angle_loop_length s rest [first]) as [_ Hne].
      apply (Hne ltac:(discriminate)).
      destruct (remove_same_angle_loop s [first] rest); [reflexivity |].
      simpl in H. destruct (rev l); discriminate.
    + simpl. rewrite length_rev.
      destruct (remove_same_angle_loop_length s rest [first]) as [Hlen _].
      simpl in Hlen. exact Hlen.
    + apply remove_same_angle_points_incl.
    + apply remove_same_angle_points_gaps. exact Hs.
Qed.

(** The result of [graham_scan] on any engine that holds a point. *)
Lemma graham_scan_any (self : ConvexHull2D) (h : list Point2D)
    (self' : ConvexHull2D) :
  graham_scan self = Return (h, self') ->
  exists start,
    lowest_leftmost start (points self) /\
    ((length (filtered_of start (points self)) < 2)%nat /\
     h = start :: filtered_of start (points self) /\ self' = self
     \/
     exists stack,
       scan_inv start stack /\ h = rev stack /\
       self' = {| points := points self; hull := rev stack |}).
Proof.
  intros Hg.
  destruct (points self) as [| first rest] eqn:Ep.
  { unfold graham_scan in Hg. rewrite Ep in Hg. discriminate. }
  destruct (py_min_total (points self)) as [start Hmin];
    [rewrite Ep; discriminate |].
  pose proof (py_min_lowest_leftmost _ _ Hmin) as Hlow.
  rewrite <- Ep. exists start. split; [exact Hlow |].
  destruct (graham_scan_cases self start Hmin)
    as [[Hlen Hg'] | [f0 [f1 [tl [Hf Hg']]]]]; rewrite Hg' in Hg;
    injection Hg as <- <-.
  - left. auto.
  - right. exists (fold_left scan_step tl [f1; f0; start]).
    split; [| split; reflexivity].
    apply scan_result_inv; rewrite <- Hf.
    + apply filtered_of_above. exact Hlow.
    + apply filtered_of_sorted.
Qed.

Lemma scan_inv_length (s : Point2D) (stack : list Point2D) :
  scan_inv s stack -> (3 <= length stack)%nat.
Proof.
  intros [body [-> [Hlen _]]]. rewrite length_app. simpl. lia.
Qed.

(** X8. A call of [graham_scan] never changes the engine's points; a
    returned hull of at least 3 vertices is always stored, and
    [get_hull_vertices] returns it afterwards; after any call the engine
    either is exactly as it was or holds the returned hull. *)
Theorem graham_scan_stores_hull (self : ConvexHull2D) (h : list Point2D)
    (self' : ConvexHull2D) :
  graham_scan self = Return (h, self') ->
  points self' = points self /\
  ((3 <= length h)%nat -> get_hull_vertices self' = h) /\
  (self' = self \/ get_hull_vertices self' = h).
Proof.
  intros Hg.
  destruct (py_min min_key (points self)) as [start | e] eqn:Hmin.
  2:{ unfold graham_scan in Hg. rewrite Hmin in Hg. discriminate. }
  destruct (graham_scan_cases self start Hmin)
    as [[Hlen Hg'] | [f0 [f1 [tl [Hf Hg']]]]]; rewrite Hg' in Hg;
    injection Hg as <- <-.
  - split; [reflexivity |]. split; [simpl; lia | left; reflexivity].
  - split; [reflexivity |]. split; [reflexivity | right; reflexivity].
Qed.

Lemma graham_scan_NoDup (self : ConvexHull2D) (h : list Point2D)
    (self' : ConvexHull2D) :
  graham_scan self = Return (h, self') -> NoDup h /\ incl h (points self).
Proof.
  intros Hg. split.
  - destruct (graham_scan_any self h self' Hg)
      as [start [Hlow [[Hlen [-> ->]] | [stack [Hinv [-> ->]]]]]].
    + apply pivot_once.
      * apply filtered_of_above. exact Hlow.
      * apply (StronglySorted_NoDup (angle_lt start)).
        -- unfold angle_lt. intros a. lra.
        -- apply filtered_of_sorted.
    + destruct Hinv as [body [-> [Hlen [Hab [Hs Hok]]]]].
      rewrite rev_app_distr. simpl. apply pivot_once.
      * apply Forall_rev. exact Hab.
      * apply NoDup_rev, (StronglySorted_NoDup (angle_gt start)).
        -- unfold angle_gt. intros a. lra.
        -- exact Hs.
  - destruct (graham_scan_returns self) as [start [body [s2 [Hg2 [Hlow Hb]]]]].
    + intros E. unfold graham_scan in Hg. rewrite E in Hg. discriminate.
    + rewrite Hg in Hg2. injection Hg2 as -> ->.
      intros q [<- | Hq]; [apply Hlow |].
      apply Hb, filter_In in Hq. tauto.
Qed.

(** X9. The hull [graham_scan] returns is the pivot followed by points
    that lie higher than the pivot, or level and to its right, in strictly
    increasing polar angle around it; it never has more vertices than the
    engine has points. *)
Theorem graham_scan_angular_order (self : ConvexHull2D) (h : list Point2D)
    (self' : ConvexHull2D) :
  graham_scan self = Return (h, self') ->
  exists start body,
    h = start :: body /\
    Forall (above start) body /\
    StronglySorted (fun a b => polar_angle start a < polar_angle start b)
      body /\
    (length h <= length (points self))%nat.
Proof.
  intros Hg.
  assert (Hlen : (length h <= length (points self))%nat).
  { destruct (graham_scan_NoDup self h self' Hg) as [Hnd Hincl].
    apply NoDup_incl_length; assumption. }
  destruct (graham_scan_any self h self' Hg)
    as [start [Hlow [[_ [-> ->]] | [stack [Hinv [-> ->]]]]]].
  - exists start, (filtered_of start (points self)).
    split; [reflexivity |].
    split; [apply filtered_of_above; exact Hlow |].
    split; [apply filtered_of_sorted | exact Hlen].
  - destruct Hinv as [body [-> [Hl [Hab [Hs Hok]]]]].
    rewrite rev_app_distr in *. simpl in *.
    exists start, (rev body). split; [reflexivity |].
    split; [apply Forall_rev; exact Hab |].
    split; [apply (StronglySorted_rev (angle_gt start)); exact Hs | exact Hlen].
Qed.

(** ** The dispatcher and the metrics *)

(** X10. With the identifier "graham" the dispatcher raises the
    constructor's error for fewer than 3 points, and otherwise returns the
    list, never empty, that [graham_scan] returns on a fresh engine. *)
Theorem compute_convex_hull_graham (pts : list Point2D) :
  ((length pts < 3)%nat ->
   compute_convex_hull pts "graham" = Raise (ValueError too_few_points_msg)) /\
  ((3 <= length pts)%nat ->
   exists h self',
     graham_scan {| points := pts; hull := [] |} = Return (h, self') /\
     compute_convex_hull pts "graham" = Return (PyList h) /\
     h <> []).
Proof.
  unfold compute_convex_hull, init. simpl String.eqb. cbv iota.
  split; intros Hlen.
  - destruct (Nat.ltb_spec (length pts) 3); [reflexivity | lia].
  - destruct (Nat.ltb_spec (length pts) 3); [lia |].
    destruct (graham_scan_returns {| points := pts; hull := [] |})
      as [start [body [self' [Hg _]]]].
    { simpl. destruct pts; simpl in Hlen; [lia | discriminate]. }
    exists (start :: body), self'. split; [exact Hg |].
    simpl. unfold compute_hull. rewrite Hg. split; [reflexivity | discriminate].
Qed.

(** X11. The dispatcher raises "Unknown algorithm: <identifier>" exactly
    for the identifiers other than "graham" and "quick", whatever the
    points are, an empty list included. *)
Theorem compute_convex_hull_unknown_iff (pts : list Point2D)
    (algorithm : string) :
  compute_convex_hull pts algorithm =
    Raise (ValueError (unknown_algorithm_msg algorithm)) <->
  algorithm <> "graham"%string /\ algorithm <> "quick"%string.
Proof.
  split.
  - intros H. split; intros ->.
    + unfold compute_convex_hull in H. simpl String.eqb in H. cbv iota in H.
      unfold init in H. destruct (Nat.ltb_spec (length pts) 3) as [Hl | Hl].
      * simpl in H. injection H as H.
        unfold too_few_points_msg, unknown_algorithm_msg in H. simpl in H.
        discriminate.
      * simpl in H. unfold compute_hull in H.
        destruct (graham_scan_returns {| points := pts; hull := [] |})
          as [start [body [self' [Hg _]]]].
        { simpl. destruct pts; simpl in Hl; [lia | discriminate]. }
        rewrite Hg in H. simpl in H. discriminate.
    + discriminate.
  - intros [Hg Hq]. apply compute_convex_hull_unknown; assumption.
Qed.

(** X12. [graham_scan] raises exactly when the engine holds no point
    (the [min] of an empty list); on any other engine it returns a hull
    with at least one vertex. *)
Theorem graham_scan_raises_iff_empty (self : ConvexHull2D) :
  ((exists e, graham_scan self = Raise e) <-> points self = []) /\
  (points self <> [] ->
   exists h self', graham_scan self = Return (h, self') /\ h <> []).
Proof.
  split; [split |].
  - intros [e He]. destruct (points self) as [| first rest] eqn:E;
      [reflexivity | exfalso].
    destruct (graham_scan_returns self) as [start [body [self' [Hg _]]]].
    + rewrite E. discriminate.
    + rewrite Hg in He. discriminate.
  - intros E. unfold graham_scan. rewrite E. simpl. eauto.
  - intros Hne.
    destruct (graham_scan_returns self Hne) as [start [body [self' [Hg _]]]].
    exists (start :: body), self'. split; [exact Hg | discriminate].
Qed.

Lemma fold_left_nonneg {A : Type} (g : A -> R) (l : list A) :
  (forall a, In a l -> 0 <= g a) ->
  forall acc, acc <= fold_left (fun acc a => acc + g a) l acc.
Proof.
  induction l as [| a l IH]; intros Hg acc; simpl.
  - lra.
  - specialize (IH (fun b Hb => Hg b (or_intror Hb)) (acc + g a)).
    specialize (Hg a (or_introl eq_refl)). lra.
Qed.


Lemma fold_left_ext_in {A B : Type} (f g : A -> B -> A) (l : list B) :
  (forall acc b, In b l -> f acc b = g acc b) ->
  forall acc, fold_left f l acc = fold_left g l acc.
Proof.
  induction l as [| b l IH]; intros H acc; simpl; [reflexivity |].
  rewrite (H acc b (or_introl eq_refl)).
  apply IH. intros a c Hc. apply H. right. exact Hc.
Qed.


(** ** Moving the input *)

Section MapCompatible.
Context {A : Type}.
Variables (f : A -> A) (key key' : A -> R * R).
Hypothesis key_compat :
  forall a b, tuple_lt (key' (f a)) (key' (f b)) = tuple_lt (key a) (key b).

Lemma min_loop_map (rest : list A) (best : A) :
  min_loop key' (f best) (map f rest) = f (min_loop key best rest).
Proof.
  revert best. induction rest as [| item rest IH]; intros best; simpl.
  - reflexivity.
  - rewrite key_compat. destruct (tuple_lt (key item) (key best)); apply IH.
Qed.

Lemma insert_sorted_map (a : A) (l : list A) :
  insert_sorted key' (f a) (map f l) = map f (insert_sorted key a l).
Proof.
  induction l as [| b l IH]; simpl; [reflexivity |].
  rewrite key_compat. destruct (tuple_lt (key b) (key a)); simpl.
  - rewrite IH. reflexivity.
  - reflexivity.
Qed.

Lemma sorted_map (l : list A) :
  sorted key' (map f l) = map f (sorted key l).
Proof.
  induction l as [| a l IH]; simpl; [reflexivity |].
  rewrite IH. apply insert_sorted_map.
Qed.
End MapCompatible.

Section Translation.
Variables dx dy : R.
Local Abbreviation T := (translate dx dy).

Lemma polar_angle_translate (s p : Point2D) :
  polar_angle (T s) (T p) = polar_angle s p.
Proof.
  unfold polar_angle, T, translate. simpl. f_equal; ring.
Qed.

Lemma distance_to_translate (p q : Point2D) :
  distance_to (T p) (T q) = distance_to p q.
Proof.
  unfold distance_to, T, translate. simpl. f_equal. ring.
Qed.

Lemma Point2D_eq_translate (p q : Point2D) :
  Point2D_eq (T p) (T q) = Point2D_eq p q.
Proof.
  destruct (Point2D_eq p q) eqn:E.
  - apply Point2D_eq_true in E. subst q. apply Point2D_eq_true. reflexivity.
  - apply Point2D_eq_false in E. apply Point2D_eq_false. intros H. apply E.
    unfold T, translate in H. injection H as Hx Hy.
    destruct p, q; simpl in *. f_equal; lra.
Qed.

Lemma min_key_translate (a b : Point2D) :
  tuple_lt (min_key (T a)) (min_key (T b)) = tuple_lt (min_key a) (min_key b).
Proof.
  destruct (tuple_lt (min_key a) (min_key b)) eqn:E.
  - apply tuple_lt_true in E. apply tuple_lt_true.
    unfold min_key, T, translate in *. simpl in *. lra.
  - apply tuple_lt_false in E. apply tuple_lt_false.
    unfold min_key, T, translate in *. simpl in *. lra.
Qed.

Lemma sort_key_translate (s p : Point2D) :
  sort_key (T s) (T p) = sort_key s p.
Proof.
  unfold sort_key. rewrite polar_angle_translate, distance_to_translate.
  reflexivity.
Qed.

Lemma ccw_translate (a b c : Point2D) : ccw (T a) (T b) (T c) = ccw a b c.
Proof.
  unfold ccw. f_equal. apply orientation_eq_of_val.
  unfold orientation_val, T, translate. simpl. ring.
Qed.

Lemma filter_translate (s : Point2D) (l : list Point2D) :
  filter (fun p => negb (Point2D_eq p (T s))) (map T l) =
  map T (filter (fun p => negb (Point2D_eq p s)) l).
Proof.
  induction l as [| a l IH]; simpl; [reflexivity |].
  rewrite Point2D_eq_translate, IH.
  destruct (Point2D_eq a s); reflexivity.
Qed.

Lemma remove_same_angle_loop_translate (s : Point2D) (pts : list Point2D) :
  forall filtered,
    remove_same_angle_loop (T s) (map T filtered) (map T pts) =
    map T (remove_same_angle_loop s filtered pts).
Proof.
  induction pts as [| p rest IH]; intros filtered; simpl; [reflexivity |].
  destruct filtered as [| last before]; simpl.
  - apply (IH [p]).
  - unfold same_angle. rewrite !polar_angle_translate, !distance_to_translate.
    fold (same_angle s last p).
    destruct (same_angle s last p);
      [destruct (Rltb (distance_to s last) (distance_to s p)) |].
    + apply (IH (p :: before)).
    + apply (IH (last :: before)).
    + apply (IH (p :: last :: before)).
Qed.

Lemma remove_same_angle_points_translate (s : Point2D) (pts : list Point2D) :
  remove_same_angle_points (T s) (map T pts) =
  map T (remove_same_angle_points s pts).
Proof.
  destruct pts as [| first rest]; simpl; [reflexivity |].
  change [translate dx dy first] with (map T [first]).
  rewrite (remove_same_angle_loop_translate s rest [first]).
  symmetry. apply map_rev.
Qed.

Lemma pop_while_translate (p : Point2D) (stack : list Point2D) :
  pop_while (T p) (map T stack) = map T (pop_while p stack).
Proof.
  induction stack as [| top below IH]; simpl; [reflexivity |].
  destruct below as [| second below']; simpl; [reflexivity |].
  rewrite ccw_translate. destruct (ccw second top p); simpl.
  - reflexivity.
  - exact IH.
Qed.

Lemma scan_translate (rest : list Point2D) :
  forall stack,
    fold_left scan_step (map T rest) (map T stack) =
    map T (fold_left scan_step rest stack).
Proof.
  induction rest as [| p rest IH]; intros stack; simpl; [reflexivity |].
  unfold scan_step at 2 4. rewrite pop_while_translate.
  apply (IH (p :: pop_while p stack)).
Qed.

Lemma filtered_of_translate (s : Point2D) (pts : list Point2D) :
  filtered_of (T s) (map T pts) = map T (filtered_of s pts).
Proof.
  unfold filtered_of. rewrite filter_translate.
  rewrite (sorted_map T (sort_key s) (sort_key (T s))).
  - apply remove_same_angle_points_translate.
  - intros a b. rewrite !sort_key_translate. reflexivity.
Qed.

End Translation.

Lemma hull_at_translate (dx dy : R) (self : ConvexHull2D) (i : nat) :
  (i < length (hull self))%nat ->
  hull_at (translate_engine dx dy self) i = translate dx dy (hull_at self i).
Proof.
  intros Hi. unfold hull_at, translate_engine. cbn [hull].
  rewrite (nth_indep _ origin0 (translate dx dy origin0))
    by (rewrite length_map; exact Hi).
  apply map_nth.
Qed.



(** ** The axis limits of the plot *)

Lemma min_number_le (rest : list R) (best : R) :
  min_number best rest <= best /\
  forall v, In v rest -> min_number best rest <= v.
Proof.
  revert best. induction rest as [| item rest IH]; intros best; simpl.
  - split; [lra | tauto].
  - destruct (Rltb item best) eqn:E.
    + apply Rltb_true in E. destruct (IH item) as [H1 H2].
      split; [lra |]. intros v [<- | Hv]; auto.
    + apply Rltb_false in E. destruct (IH best) as [H1 H2].
      split; [lra |]. intros v [<- | Hv]; [lra | auto].
Qed.

Lemma max_number_ge (rest : list R) (best : R) :
  best <= max_number best rest /\
  forall v, In v rest -> v <= max_number best rest.
Proof.
  revert best. induction rest as [| item rest IH]; intros best; simpl.
  - split; [lra | tauto].
  - destruct (Rltb best item) eqn:E.
    + apply Rltb_true in E. destruct (IH item) as [H1 H2].
      split; [lra |]. intros v [<- | Hv]; auto.
    + apply Rltb_false in E. destruct (IH best) as [H1 H2].
      split; [lra |]. intros v [<- | Hv]; [lra | auto].
Qed.

(** X21. The axis limits [plot_convex_hull] computes exist exactly when
    the point list is not empty, and then every point lies within them in
    both coordinates. *)
Theorem plot_limits_contain_points (pts : list Point2D) :
  (plot_limits pts = None <-> pts = []) /\
  forall x_lo x_hi y_lo y_hi,
    plot_limits pts = Some ((x_lo, x_hi), (y_lo, y_hi)) ->
    forall p, In p pts -> x_lo <= x p <= x_hi /\ y_lo <= y p <= y_hi.
Proof.
  split.
  - destruct pts; simpl; split; intros; congruence.
  - intros x_lo x_hi y_lo y_hi H p Hp.
    destruct pts as [| q rest]; [discriminate |].
    simpl in H. injection H as <- <- <- <-.
    destruct (min_number_le (map x rest) (x q)) as [A1 A2].
    destruct (max_number_ge (map x rest) (x q)) as [B1 B2].
    destruct (min_number_le (map y rest) (y q)) as [C1 C2].
    destruct (max_number_ge (map y rest) (y q)) as [D1 D2].
    assert (Hx : min_number (x q) (map x rest) <= x p <=
                 max_number (x q) (map x rest)).
    { destruct Hp as [<- | Hp]; [lra |].
      split; [apply A2 | apply B2]; apply in_map; exact Hp. }
    assert (Hy : min_number (y q) (map y rest) <= y p <=
                 max_number (y q) (map y rest)).
    { destruct Hp as [<- | Hp]; [lra |].
      split; [apply C2 | apply D2]; apply in_map; exact Hp. }
    lra.
Qed.

(** ** Calling the scan again *)

(** The list [graham_scan] returns depends on the engine's points only. *)
Lemma graham_scan_points_only (pts h1 h2 : list Point2D) :
  match graham_scan {| points := pts; hull := h1 |},
        graham_scan {| points := pts; hull := h2 |} with
  | Return (a, _), Return (b, _) => a = b
  | Raise e1, Raise e2 => e1 = e2
  | _, _ => False
  end.
Proof.
  unfold graham_scan. cbn [points].
  destruct (py_min min_key pts) as [start | e]; cbn [bind]; [| reflexivity].
  destruct (length _ <? 2)%nat; reflexivity.
Qed.

(** X22. A second call of [graham_scan], on the engine the first call
    left, returns the same hull and leaves that engine unchanged. *)
Theorem graham_scan_twice (self : ConvexHull2D) (h : list Point2D)
    (self' : ConvexHull2D) :
  graham_scan self = Return (h, self') ->
  graham_scan self' = Return (h, self').
Proof.
  intros Hg.
  destruct (graham_scan_any self h self' Hg)
    as [start [_ [[_ [_ ->]] | [stack [Hinv [-> ->]]]]]]; [exact Hg |].
  destruct self as [pts hl]. cbn [points] in *.
  pose proof (graham_scan_points_only pts hl (rev stack)) as H.
  rewrite Hg in H.
  destruct (graham_scan {| points := pts; hull := rev stack |})
    as [[h2 after] |] eqn:E; [| contradiction].
  subst h2. f_equal. f_equal.
  destruct (graham_scan_any _ _ _ E)
    as [start' [_ [[Hlen [Hh _]] | [stack' [_ [Hh ->]]]]]]; cbn [points] in *.
  - pose proof (scan_inv_length start stack Hinv) as Hl.
    apply (f_equal (@length Point2D)) in Hh.
    rewrite length_rev in Hh. simpl in Hh. lia.
  - rewrite <- Hh. reflexivity.
Qed.

Lemma min_loop_fixed {A : Type} (key : A -> R * R) (rest : list A) (best : A) :
  Forall (fun b => tuple_lt (key b) (key best) = false) rest ->
  min_loop key best rest = best.
Proof.
  induction 1 as [| b rest Hb _ IH]; simpl; [reflexivity |].
  rewrite Hb. exact IH.
Qed.

Lemma sorted_of_sorted {A : Type} (key : A -> R * R) (l : list A) :
  StronglySorted (key_le key) l -> sorted key l = l.
Proof.
  induction 1 as [| a l Hs IH Hf]; simpl; [reflexivity |].
  rewrite IH. destruct l as [| b l]; [reflexivity |].
  inversion Hf as [| ? ? Hab _]; subst. simpl.
  unfold key_le in Hab. rewrite Hab. reflexivity.
Qed.

Lemma angle_gap_not_same (s a b : Point2D) :
  angle_gap s a b -> same_angle s a b = false.
Proof.
  unfold angle_gap, same_angle. intros H. apply Rltb_false.
  pose proof angle_tolerance_pos. rewrite Rabs_left by lra. lra.
Qed.

Lemma remove_same_angle_loop_spaced_id (s : Point2D) (pts : list Point2D) :
  forall last before,
    StronglySorted (angle_gap s) (last :: pts) ->
    remove_same_angle_loop s (last :: before) pts =
    rev pts ++ last :: before.
Proof.
  induction pts as [| p rest IH]; intros last before Hs; simpl.
  - reflexivity.
  - apply StronglySorted_inv in Hs. destruct Hs as [Hs Hf].
    inversion Hf as [| ? ? Hlp _]; subst.
    rewrite (angle_gap_not_same s last p Hlp).
    rewrite (IH p (last :: before) Hs).
    rewrite <- app_assoc. reflexivity.
Qed.

Lemma remove_same_angle_points_spaced_id (s : Point2D) (pts : list Point2D) :
  StronglySorted (angle_gap s) pts -> remove_same_angle_points s pts = pts.
Proof.
  intros Hs. destruct pts as [| first rest]; [reflexivity |].
  simpl. rewrite (remove_same_angle_loop_spaced_id s rest first [] Hs).
  rewrite rev_app_distr, rev_involutive. reflexivity.
Qed.

Lemma scan_no_pop (rest : list Point2D) :
  forall stack,
    (2 <= length stack)%nat -> stack_ok (rev rest ++ stack) ->
    fold_left scan_step rest stack = rev rest ++ stack.
Proof.
  induction rest as [| p rest IH]; intros stack Hlen Hok; [reflexivity |].
  simpl in Hok. rewrite <- app_assoc in Hok. simpl in Hok.
  cbn [fold_left]. unfold scan_step at 2.
  assert (Hp : pop_while p stack = stack).
  { apply stack_ok_suffix in Hok.
    destruct stack as [| top [| second below]]; simpl in Hlen; try lia.
    simpl in Hok. destruct Hok as [Hc _]. simpl. rewrite Hc. reflexivity. }
  rewrite Hp, (IH (p :: stack)); [| simpl; lia | exact Hok].
  simpl. rewrite <- app_assoc. reflexivity.
Qed.

(** The part of the stack above the pivot keeps the spacing of the
    candidates. *)
Lemma pop_while_suffix (p s : Point2D) (body : list Point2D) :
  exists pre body',
    body = pre ++ body' /\ pop_while p (body ++ [s]) = body' ++ [s].
Proof.
  induction body as [| top body IH].
  - exists [], []. split; reflexivity.
  - simpl. destruct (body ++ [s]) as [| second below'] eqn:E.
    + destruct body; discriminate.
    + destruct (negb (ccw second top p)).
      * destruct IH as [pre [body' [H1 H2]]].
        exists (top :: pre), body'. rewrite H1 at 1. split; [reflexivity | exact H2].
      * exists [], (top :: body). simpl. rewrite E. split; reflexivity.
Qed.

Lemma scan_spaced (s : Point2D) (rest : list Point2D) :
  forall body,
    StronglySorted (fun a b => angle_gap s b a) body ->
    StronglySorted (angle_gap s) rest ->
    (forall a p, In a body -> In p rest -> angle_gap s a p) ->
    exists body',
      fold_left scan_step rest (body ++ [s]) = body' ++ [s] /\
      StronglySorted (fun a b => angle_gap s b a) body'.
Proof.
  induction rest as [| p rest IH]; intros body Hb Hr Hbr.
  - exists body. split; [reflexivity | exact Hb].
  - apply StronglySorted_inv in Hr. destruct Hr as [Hr Hpr].
    rewrite Forall_forall in Hpr.
    destruct (pop_while_suffix p s body) as [pre [b1 [E1 E2]]].
    cbn [fold_left]. unfold scan_step at 2. rewrite E2.
    change (p :: b1 ++ [s]) with ((p :: b1) ++ [s]).
    apply IH; [| exact Hr |].
    + constructor.
      * rewrite E1 in Hb. eapply StronglySorted_suffix. exact Hb.
      * apply Forall_forall. intros a Ha. apply Hbr; [| left; reflexivity].
        rewrite E1. apply in_or_app. right. exact Ha.
    + intros a q [<- | Ha] Hq; [apply Hpr; exact Hq |].
      apply Hbr; [| right; exact Hq].
      rewrite E1. apply in_or_app. right. exact Ha.
Qed.

Lemma filtered_of_spaced (s : Point2D) (pts : list Point2D) :
  StronglySorted (angle_gap s) (filtered_of s pts).
Proof.
  unfold filtered_of. apply remove_same_angle_points_gaps.
  apply sorted_angle_le.
Qed.

Lemma graham_scan_shape (self : ConvexHull2D) (h : list Point2D)
    (self' : ConvexHull2D) :
  graham_scan self = Return (h, self') ->
  exists start body,
    h = start :: body /\
    Forall (above start) body /\
    StronglySorted (angle_gap start) body /\
    ((2 <= length body)%nat -> stack_ok (rev h)).
Proof.
  intros Hg.
  destruct (points self) as [| first rest0] eqn:Ep.
  { unfold graham_scan in Hg. rewrite Ep in Hg. discriminate. }
  destruct (py_min_total (points self)) as [start Hmin];
    [rewrite Ep; discriminate |].
  pose proof (py_min_lowest_leftmost _ _ Hmin) as Hlow.
  pose proof (filtered_of_above start (points self) Hlow) as Hab.
  pose proof (filtered_of_spaced start (points self)) as Hsp.
  pose proof (filtered_of_sorted start (points self)) as Hso.
  destruct (graham_scan_cases self start Hmin)
    as [[Hlen Hg'] | [f0 [f1 [tl [Hf Hg']]]]]; rewrite Hg' in Hg;
    injection Hg as <- <-.
  - exists start, (filtered_of start (points self)).
    split; [reflexivity |]. split; [exact Hab |]. split; [exact Hsp |].
    intros H. lia.
  - rewrite Hf in Hab, Hsp, Hso.
    destruct (scan_result_inv start f0 f1 tl Hab Hso)
      as [body [Hst [Hl [Habove [_ Hok]]]]].
    destruct (scan_spaced start tl [f1; f0]) as [body' [Hst' Hgap]].
    + apply StronglySorted_inv in Hsp. destruct Hsp as [_ Hf0].
      inversion Hf0; subst.
      constructor; [constructor; constructor |].
      constructor; [assumption | constructor].
    + apply StronglySorted_inv in Hsp. destruct Hsp as [Hsp _].
      apply StronglySorted_inv in Hsp. tauto.
    + apply StronglySorted_inv in Hsp. destruct Hsp as [Hsp Hf0].
      apply StronglySorted_inv in Hsp. destruct Hsp as [_ Hf1].
      inversion Hf0 as [| ? ? _ Hf0']; subst.
      rewrite Forall_forall in Hf0', Hf1.
      intros a p [<- | [<- | []]] Hp; auto.
    + simpl in Hst'. rewrite Hst in Hst'. apply app_inv_tail in Hst'.
      subst body'. rewrite Hst. rewrite rev_app_distr. simpl.
      exists start, (rev body). split; [reflexivity |].
      split; [apply Forall_rev; exact Habove |].
      split; [apply (StronglySorted_rev (fun a b => angle_gap start b a));
              exact Hgap |].
      intros _. simpl. rewrite rev_involutive.
      rewrite Hst in Hok. exact Hok.
Qed.

(** X23. The hull of a hull is that hull: an engine whose points are the
    list [graham_scan] returned, in that order and whatever hull it has
    stored, returns the same list from [graham_scan]. *)
Theorem graham_scan_of_hull (self : ConvexHull2D) (h : list Point2D)
    (self' : ConvexHull2D) (stored : list Point2D) :
  graham_scan self = Return (h, self') ->
  exists after,
    graham_scan {| points := h; hull := stored |} = Return (h, after).
Proof.
  intros Hg.
  destruct (graham_scan_shape self h self' Hg)
    as [start [body [-> [Hab [Hsp Hok]]]]].
  assert (Hmin : py_min min_key (start :: body) = Return start).
  { simpl. f_equal. apply min_loop_fixed.
    eapply Forall_impl; [| exact Hab].
    intros b Hb. apply tuple_lt_false. unfold above in Hb.
    unfold min_key. simpl. lra. }
  assert (Hfilter : filter (fun p => negb (Point2D_eq p start)) (start :: body)
                    = body).
  { simpl. rewrite Point2D_eq_refl. simpl.
    clear Hsp Hok Hmin Hg. induction Hab as [| b body Hb _ IH];
      [reflexivity |].
    simpl. replace (Point2D_eq b start) with false
      by (symmetry; apply Point2D_eq_false, above_neq, Hb).
    simpl. rewrite IH. reflexivity. }
  assert (Hsorted : sorted (sort_key start) body = body).
  { apply sorted_of_sorted.
    clear Hok Hmin Hfilter Hg Hab.
    induction Hsp as [| a l Hs IH Hf]; constructor; [exact IH |].
    eapply Forall_impl; [| exact Hf].
    intros b Hb. unfold key_le. apply tuple_lt_false. left.
    unfold angle_gap in Hb. unfold sort_key. simpl.
    pose proof angle_tolerance_pos. lra. }
  assert (Hf : filtered_of start (start :: body) = body).
  { unfold filtered_of. rewrite Hfilter, Hsorted.
    apply remove_same_angle_points_spaced_id. exact Hsp. }
  destruct (graham_scan_cases {| points := start :: body; hull := stored |}
              start Hmin) as [[_ Hr] | [f0 [f1 [rest [Hf' Hr]]]]];
    cbn [points] in *; rewrite Hf in *.
  - eexists. exact Hr.
  - subst body. eexists. rewrite Hr. f_equal. f_equal.
    specialize (Hok ltac:(simpl; lia)).
    rewrite (scan_no_pop rest [f1; f0; start]).
    + rewrite rev_app_distr, rev_involutive. reflexivity.
    + simpl. lia.
    + simpl in Hok. rewrite <- !app_assoc in Hok. exact Hok.
Qed.

(** ** The further properties at concrete inputs *)

Lemma candidates_in_angle_order :
  StronglySorted (angle_le sq0) [sq1; sq4; sq2; sq3].
Proof.
  pose proof PI_RGT_0 as Hpi.
  repeat first [ apply SSorted_nil | apply SSorted_cons
               | apply Forall_nil | apply Forall_cons ];
    unfold angle_le; autorewrite with polar; lra.
Qed.

Lemma remove_same_angle_points_spaced_witness :
  StronglySorted (angle_le sq0) [sq1; sq4; sq2; sq3] /\
  (remove_same_angle_points sq0 [sq1; sq4; sq2; sq3] = [] <->
   [sq1; sq4; sq2; sq3] = []) /\
  (length (remove_same_angle_points sq0 [sq1; sq4; sq2; sq3]) <=
   length [sq1; sq4; sq2; sq3])%nat /\
  incl (remove_same_angle_points sq0 [sq1; sq4; sq2; sq3])
       [sq1; sq4; sq2; sq3] /\
  StronglySorted (angle_gap sq0)
    (remove_same_angle_points sq0 [sq1; sq4; sq2; sq3]).
Proof.
  split; [exact candidates_in_angle_order |].
  apply (remove_same_angle_points_spaced sq0 [sq1; sq4; sq2; sq3]).
  exact candidates_in_angle_order.
Defined.

Lemma graham_scan_stores_hull_witness :
  graham_scan {| points := square; hull := [] |} =
    Return ([sq0; sq1; sq2; sq3],
            {| points := square; hull := [sq0; sq1; sq2; sq3] |}) /\
  (points {| points := square; hull := [sq0; sq1; sq2; sq3] |} =
     points {| points := square; hull := [] |} /\
   ((3 <= length [sq0; sq1; sq2; sq3])%nat ->
    get_hull_vertices {| points := square; hull := [sq0; sq1; sq2; sq3] |} =
      [sq0; sq1; sq2; sq3]) /\
   ({| points := square; hull := [sq0; sq1; sq2; sq3] |} =
      {| points := square; hull := [] |} \/
    get_hull_vertices {| points := square; hull := [sq0; sq1; sq2; sq3] |} =
      [sq0; sq1; sq2; sq3])).
Proof.
  split; [exact graham_scan_square |].
  apply (graham_scan_stores_hull {| points := square; hull := [] |}).
  exact graham_scan_square.
Defined.

Lemma graham_scan_angular_order_witness :
  graham_scan {| points := square; hull := [] |} =
    Return ([sq0; sq1; sq2; sq3],
            {| points := square; hull := [sq0; sq1; sq2; sq3] |}) /\
  exists start body,
    [sq0; sq1; sq2; sq3] = start :: body /\
    Forall (above start) body /\
    StronglySorted (fun a b => polar_angle start a < polar_angle start b)
      body /\
    (length [sq0; sq1; sq2; sq3] <=
     length (points {| points := square; hull := [] |}))%nat.
Proof.
  split; [exact graham_scan_square |].
  apply (graham_scan_angular_order {| points := square; hull := [] |}
           [sq0; sq1; sq2; sq3]
           {| points := square; hull := [sq0; sq1; sq2; sq3] |}).
  exact graham_scan_square.
Defined.

Lemma graham_scan_twice_witness :
  graham_scan {| points := square; hull := [] |} =
    Return ([sq0; sq1; sq2; sq3],
            {| points := square; hull := [sq0; sq1; sq2; sq3] |}) /\
  graham_scan {| points := square; hull := [sq0; sq1; sq2; sq3] |} =
    Return ([sq0; sq1; sq2; sq3],
            {| points := square; hull := [sq0; sq1; sq2; sq3] |}).
Proof.
  split; [exact graham_scan_square |].
  apply (graham_scan_twice {| points := square; hull := [] |}).
  exact graham_scan_square.
Defined.

Lemma graham_scan_of_hull_witness :
  graham_scan {| points := square; hull := [] |} =
    Return ([sq0; sq1; sq2; sq3],
            {| points := square; hull := [sq0; sq1; sq2; sq3] |}) /\
  exists after,
    graham_scan {| points := [sq0; sq1; sq2; sq3]; hull := [] |} =
      Return ([sq0; sq1; sq2; sq3], after).
Proof.
  split; [exact graham_scan_square |].
  apply (graham_scan_of_hull {| points := square; hull := [] |}
           [sq0; sq1; sq2; sq3]
           {| points := square; hull := [sq0; sq1; sq2; sq3] |} []).
  exact graham_scan_square.
Defined.
